(** * rq: queues of jobs over a Redis store

    A shallow embedding of [rq/queue.py]: the module function
    [release_job] and the classes [Queue] and [FailedQueue], over an
    explicit model of the Redis connection they talk to. *)

From Stdlib Require Import ZArith.
From stdpp Require Import gmap strings list fin_maps.

Open Scope string_scope.

(** ** Jobs *)

(** [rq.job.Status]. *)
Inductive Status := QUEUED | FINISHED | FAILED | STARTED | DEFERRED.

#[global] Instance Status_eq_dec : EqDecision Status.
Proof. solve_decision. Defined.

(** Modelled from the spec: [rq.job.Job], the in-memory job object.  Its
    class lives in rq/job.py; the fields are those of the data model that
    queue.py reads or writes, plus the parent list of the dependency
    protocol.  An attribute that holds Python's [None] is [None] here. *)
Record Job := mkJob {
  id : string;
  status : option Status;
  origin : option string;
  timeout : option Z;
  enqueued_at : option Z;
  ended_at : option Z;
  exc_info : option string;
  dependencies : list string
}.

#[global] Instance Job_eq_dec : EqDecision Job.
Proof. solve_decision. Defined.

Definition set_status (s : option Status) (j : Job) : Job :=
  mkJob (id j) s (origin j) (timeout j) (enqueued_at j) (ended_at j)
        (exc_info j) (dependencies j).
Definition set_origin (o : option string) (j : Job) : Job :=
  mkJob (id j) (status j) o (timeout j) (enqueued_at j) (ended_at j)
        (exc_info j) (dependencies j).
Definition set_timeout (t : option Z) (j : Job) : Job :=
  mkJob (id j) (status j) (origin j) t (enqueued_at j) (ended_at j)
        (exc_info j) (dependencies j).
Definition set_enqueued_at (t : option Z) (j : Job) : Job :=
  mkJob (id j) (status j) (origin j) (timeout j) t (ended_at j)
        (exc_info j) (dependencies j).
Definition set_ended_at (t : option Z) (j : Job) : Job :=
  mkJob (id j) (status j) (origin j) (timeout j) (enqueued_at j) t
        (exc_info j) (dependencies j).
Definition set_exc_info (e : option string) (j : Job) : Job :=
  mkJob (id j) (status j) (origin j) (timeout j) (enqueued_at j) (ended_at j)
        e (dependencies j).

(** What is stored under a job's key: a hash that decodes to a job, or one
    whose payload cannot be materialised. *)
Inductive JobRecord :=
| Decodable (j : Job)
| Undecodable.

Definition set_id (i : string) (j : Job) : Job :=
  mkJob i (status j) (origin j) (timeout j) (enqueued_at j) (ended_at j)
        (exc_info j) (dependencies j).

(** ** Queues *)

(** The classes of queue.py; each is [Queue] or inherits from it. *)
Inductive QueueClass := Queue_cls | FailedQueue_cls | WIPQueue_cls | DoneQueue_cls.

Definition redis_queue_namespace_prefix (c : QueueClass) : string :=
  match c with
  | WIPQueue_cls => "rq:wipqueue:"
  | DoneQueue_cls => "rq:donequeue:"
  | _ => "rq:queue:"
  end.

Definition redis_queues_keys (c : QueueClass) : string :=
  match c with
  | DoneQueue_cls => "rq:donequeues"
  | _ => "rq:queues"
  end.

Definition DEFAULT_TIMEOUT : Z := 180.

(** A queue object.  [name] is an option because [release_job] and [requeue]
    build [Queue(job.origin)] also when the origin is [None]. *)
Record Queue := mkQueue {
  klass : QueueClass;
  name : option string;
  default_timeout : option Z;
  async : bool
}.

#[global] Instance QueueClass_eq_dec : EqDecision QueueClass.
Proof. solve_decision. Defined.
#[global] Instance Queue_eq_dec : EqDecision Queue.
Proof. solve_decision. Defined.

(** ['%s' % name]. *)
Definition str_of (o : option string) : string :=
  match o with
  | Some s => s
  | None => "None"
  end.

(** [Queue.key]: ['%s%s' % (prefix, name)]. *)
Definition key (q : Queue) : string :=
  redis_queue_namespace_prefix (klass q) ++ str_of (name q).

(** [Queue(name)], with the defaults of [__init__]. *)
Definition Queue_init (n : option string) : Queue :=
  mkQueue Queue_cls n None true.

(** [Status.FAILED], as the string that names the failed queue. *)
Definition Status_FAILED : string := "failed".

(** [FailedQueue()] and [get_failed_queue()]. *)
Definition FailedQueue_init : Queue :=
  mkQueue FailedQueue_cls (Some Status_FAILED) None true.
Definition get_failed_queue : Queue := FailedQueue_init.

(** ** Exceptions and results *)

Inductive Exn :=
| NoSuchJobError
| InvalidJobOperationError
| UnpickleError (job_id : option string) (queue : option Queue)
| DequeueTimeout (timeout : Z) (queue_keys : list string)
| ValueError
| TypeError
| ResponseError
| PerformError.

Inductive Result (A : Type) :=
| Ok (a : A)
| Raise (e : Exn).
Arguments Ok {A} a.
Arguments Raise {A} e.

(** ** The store *)

(** The Redis connection.  Lists, sets and job hashes live under key
    prefixes that never collide, so each kind has its own map; job hashes
    are keyed by job ID.  [clock] is what [utcnow] reads while the operation
    runs. *)
Record Store := mkStore {
  lists : gmap string (list string);
  sets : gmap string (gset string);
  jobs : gmap string JobRecord;
  clock : Z
}.

Definition with_lists (f : gmap string (list string) → gmap string (list string))
    (st : Store) : Store :=
  mkStore (f (lists st)) (sets st) (jobs st) (clock st).
Definition with_sets (f : gmap string (gset string) → gmap string (gset string))
    (st : Store) : Store :=
  mkStore (lists st) (f (sets st)) (jobs st) (clock st).
Definition with_jobs (f : gmap string JobRecord → gmap string JobRecord)
    (st : Store) : Store :=
  mkStore (lists st) (sets st) (f (jobs st)) (clock st).

(** SPOP takes out a member of the store's choosing. *)
Record Picker := mkPicker {
  pick :> gset string → option string;
  pick_elem_of : ∀ s x, pick s = Some x → x ∈ s;
  pick_nonempty : ∀ s, pick s = None → s = ∅
}.

(** Code that talks to the store and may raise. *)
Definition M (A : Type) : Type := Store → Result A * Store.

#[global] Instance M_ret : MRet M := λ A a st, (Ok a, st).
#[global] Instance M_bind : MBind M := λ A B f m st,
  match m st with
  | (Ok a, st1) => f a st1
  | (Raise e, st1) => (Raise e, st1)
  end.
Definition raise {A} (e : Exn) : M A := λ st, (Raise e, st).

(** The commands of the connection that queue.py issues. *)
Module Redis.

(** LRANGE key 0 -1; an absent key is the empty list. *)
Definition lrange (k : string) (st : Store) : list string :=
  default [] (lists st !! k).

(** Redis keeps no empty list: the key goes with its last element. *)
Definition put_list (k : string) (l : list string) (st : Store) : Store :=
  match l with
  | [] => with_lists (delete k) st
  | _ => with_lists (<[k := l]>) st
  end.

Definition llen (k : string) : M Z :=
  λ st, (Ok (Z.of_nat (length (lrange k st))), st).

Definition rpush (k v : string) : M unit :=
  λ st, (Ok tt, put_list k (lrange k st ++ [v]) st).

Definition lpop (k : string) : M (option string) :=
  λ st, match lrange k st with
        | [] => (Ok None, st)
        | x :: l => (Ok (Some x), put_list k l st)
        end.

(** Takes out the first [n] occurrences of [v], from the head. *)
Fixpoint remove_first (n : nat) (v : string) (l : list string) : list string :=
  match l with
  | [] => []
  | x :: l' =>
      if decide (x = v) then
        match n with
        | O => l
        | S n' => remove_first n' v l'
        end
      else x :: remove_first n v l'
  end.

(** LREM key count value: all occurrences when [count] is 0, the first
    [count] from the head when positive, from the tail when negative;
    answers how many it removed. *)
Definition lrem (k : string) (count : Z) (v : string) : M Z :=
  λ st,
    let l := lrange k st in
    let l' :=
      if (count =? 0)%Z then filter (λ x, x ≠ v) l
      else if (0 <? count)%Z then remove_first (Z.to_nat count) v l
      else reverse (remove_first (Z.to_nat (- count)) v (reverse l)) in
    (Ok (Z.of_nat (length l - length l')), put_list k l' st).

(** RENAME: an error when the source key does not exist; an existing
    destination is overwritten. *)
Definition rename (src dst : string) : M unit :=
  λ st, match lrange src st with
        | [] => (Raise ResponseError, st)
        | l => (Ok tt, with_lists (λ m, <[dst := l]> (delete src m)) st)
        end.

(** The integers the server parses: signed 64-bit. *)
Definition int64 (z : Z) : bool :=
  ((- 2 ^ 63 <=? z) && (z <=? 2 ^ 63 - 1))%Z.

(** The timeouts, in seconds, that BLPOP takes: not negative, and a
    signed 64-bit count once in milliseconds. *)
Definition blpop_accepts (timeout : Z) : bool :=
  ((0 <=? timeout) && (timeout * 1000 <=? 2 ^ 63 - 1))%Z.

(** The scan of BLPOP over its keys: the head of the first key that has
    one. *)
Fixpoint blpop_scan (keys : list string) : M (option (string * string)) :=
  match keys with
  | [] => mret None
  | k :: keys' =>
      λ st, match lrange k st with
            | [] => blpop_scan keys' st
            | x :: l => (Ok (Some (k, x)), put_list k l st)
            end
  end.

(** BLPOP keys timeout, when no producer pushes while it waits: an error
    with no key at all (wrong number of arguments) and with a timeout the
    server does not take; otherwise the head of the first key that has
    one, or nothing once the timeout expires. *)
Definition blpop (keys : list string) (timeout : Z) : M (option (string * string)) :=
  match keys with
  | [] => raise ResponseError
  | _ :: _ =>
      if blpop_accepts timeout then blpop_scan keys
      else raise ResponseError
  end.

Definition smembers (k : string) (st : Store) : gset string :=
  default ∅ (sets st !! k).

Definition put_set (k : string) (s : gset string) (st : Store) : Store :=
  if decide (s = ∅) then with_sets (delete k) st
  else with_sets (<[k := s]>) st.

Definition scard (k : string) : M Z :=
  λ st, (Ok (Z.of_nat (size (smembers k st))), st).

Definition sadd (k v : string) : M Z :=
  λ st, (Ok (if decide (v ∈ smembers k st) then 0%Z else 1%Z),
         put_set k ({[v]} ∪ smembers k st) st).

Definition srem (k v : string) : M Z :=
  λ st, (Ok (if decide (v ∈ smembers k st) then 1%Z else 0%Z),
         put_set k (smembers k st ∖ {[v]}) st).

Definition spop (P : Picker) (k : string) : M (option string) :=
  λ st, match P (smembers k st) with
        | None => (Ok None, st)
        | Some x => (Ok (Some x), put_set k (smembers k st ∖ {[x]}) st)
        end.

(** The elements of a list between two indices, as LRANGE counts them:
    both ends are included, a negative index counts from the tail, and an
    index past either end is clamped. *)
Definition slice (l : list string) (start stop : Z) : list string :=
  let llen := Z.of_nat (length l) in
  let start := if (start <? 0)%Z then (llen + start)%Z else start in
  let stop := if (stop <? 0)%Z then (llen + stop)%Z else stop in
  let start := if (start <? 0)%Z then 0%Z else start in
  if ((stop <? start) || (llen <=? start))%Z then []
  else
    let stop := if (llen <=? stop)%Z then (llen - 1)%Z else stop in
    take (Z.to_nat (stop - start + 1)) (drop (Z.to_nat start) l).

(** LRANGE key start stop: an error when an index is not a signed 64-bit
    integer, the slice of the list otherwise. *)
Definition lrange_slice (k : string) (start stop : Z) : M (list string) :=
  λ st,
    if int64 start && int64 stop then (Ok (slice (lrange k st) start stop), st)
    else (Raise ResponseError, st).

(** DEL of a list key. *)
Definition delete (k : string) : M Z :=
  λ st, (Ok (if decide (lrange k st = []) then 0%Z else 1%Z),
         with_lists (base.delete k) st).

End Redis.

(** [utcnow()]. *)
Definition utcnow : M Z := λ st, (Ok (clock st), st).

(** ** What queue.py uses of rq/job.py *)

(** Modelled from the spec: [Job.exists], whether the job ID has a backing
    record in the store. *)
Definition Job_exists (i : string) (st : Store) : bool :=
  bool_decide (is_Some (jobs st !! i)).

(** Modelled from the spec: [Job.fetch], which loads the record of an ID:
    [NoSuchJobError] when there is none, [UnpickleError] when the record
    exists and its payload cannot be materialised. *)
Definition Job_fetch (i : string) : M Job :=
  λ st, match jobs st !! i with
        | None => (Raise NoSuchJobError, st)
        | Some Undecodable => (Raise (UnpickleError None None), st)
        | Some (Decodable j) => (Ok (set_id i j), st)
        end.

(** Modelled from the spec: [job.save()], which persists the fields of the
    job under its ID. *)
Definition Job_save (j : Job) : M unit :=
  λ st, (Ok tt, with_jobs (<[id j := Decodable j]>) st).

(** Modelled from the spec: [job.cancel()], which deletes the record of the
    job. *)
Definition Job_cancel (j : Job) : M unit :=
  λ st, (Ok tt, with_jobs (base.delete (id j)) st).

(** Modelled from the spec: [job.is_deferred]. *)
Definition is_deferred (j : Job) : bool :=
  bool_decide (status j = Some DEFERRED).

(** Modelled from the spec: [job.dependents_key], the key of the
    reverse-dependency set of the job. *)
Definition dependents_key (j : Job) : string :=
  "rq:job:" ++ id j ++ ":dependents".

(** ** queue.py *)

(** The argument [job_or_id]: a [Job] instance or a job ID. *)
Inductive JobOrId :=
| AJob (j : Job)
| AnId (i : string).

(** The argument [queue_or_name]: [None], a [Queue] instance or a name. *)
Inductive QueueOrName :=
| NoQueue
| AQueue (q : Queue)
| AName (n : string).

(** A Python value, as far as [isinstance(other, Queue)] tells them apart. *)
Inductive PyObj :=
| PyQueue (q : Queue)
| PyJob (j : Job)
| PyStr (s : string)
| PyInt (z : Z)
| PyNone.

(** A loop that the model runs on fuel answers [None] when it runs out. *)
Definition Loop (A : Type) : Type := Store → option (Result A * Store).

(** [s[n:]]. *)
Fixpoint string_drop (n : nat) (s : string) : string :=
  match n, s with
  | O, _ => s
  | S n', String _ s' => string_drop n' s'
  | S _, EmptyString => EmptyString
  end.

(** Python 2 orders [None] before every string, and strings by code
    point. *)
Definition name_ltb (a b : option string) : bool :=
  match a, b with
  | None, None => false
  | None, Some _ => true
  | Some _, None => false
  | Some x, Some y => String.ltb x y
  end.

(** The module function [compact(lst)]: the items that are not [None].
    ([compact] below is the method [Queue.compact].) *)
Fixpoint compact_list {A : Type} (lst : list (option A)) : list A :=
  match lst with
  | [] => []
  | Some item :: rest => item :: compact_list rest
  | None :: rest => compact_list rest
  end.

Section QueuePy.

(** [job.perform()], which runs the function of the job: the worker's
    part, whatever it does. *)
Variable perform : Job → M Job.

(** The choices of SPOP. *)
Variable spop_choice : Picker.

(** [Queue.from_queue_key], on the class [Queue] itself. *)
Definition from_queue_key (queue_key : string) : M Queue :=
  let prefix := redis_queue_namespace_prefix Queue_cls in
  if negb (String.prefix prefix queue_key) then raise ValueError
  else
    let name := string_drop (String.length prefix) queue_key in
    mret (Queue_init (Some name)).

(** [Queue.count]. *)
Definition count (self : Queue) : M Z := Redis.llen (key self).

(** [Queue.remove]. *)
Definition remove (self : Queue) (job_or_id : JobOrId) : M Z :=
  let job_id := match job_or_id with AJob j => id j | AnId i => i end in
  Redis.lrem (key self) 0 job_id.

(** The scratch key of [Queue.compact], from the [uuid4()] it draws. *)
Definition COMPACT_QUEUE (self : Queue) (uuid : string) : string :=
  redis_queue_namespace_prefix (klass self) ++ "_compact:" ++ uuid.

(** The [while True] of [Queue.compact]. *)
Fixpoint compact_loop (fuel : nat) (self : Queue) (scratch : string) : Loop unit :=
  match fuel with
  | O => λ _, None
  | S fuel' => λ st,
      match Redis.lpop scratch st with
      | (Raise e, st1) => Some (Raise e, st1)
      | (Ok None, st1) => Some (Ok tt, st1)
      | (Ok (Some job_id), st1) =>
          if Job_exists job_id st1 then
            match Redis.rpush (key self) job_id st1 with
            | (Raise e, st2) => Some (Raise e, st2)
            | (Ok _, st2) => compact_loop fuel' self scratch st2
            end
          else compact_loop fuel' self scratch st1
      end
  end.

(** [Queue.compact]. *)
Definition compact (fuel : nat) (self : Queue) (uuid : string) : Loop unit :=
  λ st,
    match Redis.rename (key self) (COMPACT_QUEUE self uuid) st with
    | (Raise e, st1) => Some (Raise e, st1)
    | (Ok _, st1) => compact_loop fuel self (COMPACT_QUEUE self uuid) st1
    end.

(** [Queue.push_job_id]. *)
Definition push_job_id (self : Queue) (job_id : string) : M unit :=
  Redis.rpush (key self) job_id.

(** [Queue.pop_job_id]. *)
Definition pop_job_id (self : Queue) : M (option string) :=
  Redis.lpop (key self).

(** [Queue.defer_job]. *)
Definition defer_job (self : Queue) (job : Job) (set_meta_data : bool) : M Job :=
  _ ← Redis.sadd "rq:deferred" (id job);
  job ← (if set_meta_data then
           now ← utcnow;
           mret (set_enqueued_at (Some now) (set_origin (name self) job))
         else mret job);
  let job := if timeout job is None
             then set_timeout (Some DEFAULT_TIMEOUT) job else job in
  _ ← Job_save job;
  mret job.

(** [Queue.enqueue_job]. *)
Definition enqueue_job (self : Queue) (job : Job) (set_meta_data : bool) : M Job :=
  _ ← Redis.sadd (redis_queues_keys (klass self)) (key self);
  job ← (if set_meta_data then
           now ← utcnow;
           mret (set_enqueued_at (Some now) (set_origin (name self) job))
         else mret job);
  let job := if timeout job is None
             then set_timeout (Some DEFAULT_TIMEOUT) job else job in
  _ ← Job_save job;
  if async self then
    _ ← push_job_id self (id job);
    mret job
  else
    job ← perform job;
    _ ← Job_save job;
    mret job.

(** [Queue.enqueue_dependents]. *)
Fixpoint enqueue_dependents (fuel : nat) (self : Queue) (job : Job) : Loop unit :=
  match fuel with
  | O => λ _, None
  | S fuel' => λ st,
      match Redis.spop spop_choice (dependents_key job) st with
      | (Raise e, st1) => Some (Raise e, st1)
      | (Ok None, st1) => Some (Ok tt, st1)
      | (Ok (Some job_id), st1) =>
          match (dependent ← Job_fetch job_id;
                 enqueue_job self dependent true) st1 with
          | (Raise e, st2) => Some (Raise e, st2)
          | (Ok _, st2) => enqueue_dependents fuel' self job st2
          end
      end
  end.

(** The loop of the non-blocking branch of [Queue.lpop]. *)
Fixpoint lpop_each (queue_keys : list string) : M (option (string * string)) :=
  match queue_keys with
  | [] => mret None
  | queue_key :: rest =>
      blob ← Redis.lpop queue_key;
      match blob with
      | Some b => mret (Some (queue_key, b))
      | None => lpop_each rest
      end
  end.

(** [Queue.lpop]. *)
Definition lpop (queue_keys : list string) (timeout : option Z)
    : M (option (string * string)) :=
  match timeout with
  | Some t =>
      if (t =? 0)%Z then raise ValueError
      else
        result ← Redis.blpop queue_keys t;
        match result with
        | None => raise (DequeueTimeout t queue_keys)
        | Some (queue_key, job_id) => mret (Some (queue_key, job_id))
        end
  | None => lpop_each queue_keys
  end.

(** [Queue.dequeue]; the call of itself takes fuel. *)
Fixpoint dequeue (fuel : nat) (self : Queue) : Loop (option Job) :=
  match fuel with
  | O => λ _, None
  | S fuel' => λ st,
      match pop_job_id self st with
      | (Raise e, st1) => Some (Raise e, st1)
      | (Ok None, st1) => Some (Ok None, st1)
      | (Ok (Some job_id), st1) =>
          match Job_fetch job_id st1 with
          | (Raise NoSuchJobError, st2) => dequeue fuel' self st2
          | (Raise (UnpickleError _ _), st2) =>
              Some (Raise (UnpickleError (Some job_id) (Some self)), st2)
          | (Raise e, st2) => Some (Raise e, st2)
          | (Ok job, st2) => Some (Ok (Some job), st2)
          end
      end
  end.

(** [Queue.dequeue_any], called on the class [Queue]; the call of itself
    takes fuel. *)
Fixpoint dequeue_any (fuel : nat) (queues : list Queue) (timeout : option Z)
    : Loop (option (Job * Queue)) :=
  match fuel with
  | O => λ _, None
  | S fuel' => λ st,
      let queue_keys := key <$> queues in
      match lpop queue_keys timeout st with
      | (Raise e, st1) => Some (Raise e, st1)
      | (Ok None, st1) => Some (Ok None, st1)
      | (Ok (Some (queue_key, job_id)), st1) =>
          match from_queue_key queue_key st1 with
          | (Raise e, st2) => Some (Raise e, st2)
          | (Ok queue, st2) =>
              match Job_fetch job_id st2 with
              | (Raise NoSuchJobError, st3) =>
                  dequeue_any fuel' queues timeout st3
              | (Raise (UnpickleError _ _), st3) =>
                  Some (Raise (UnpickleError (Some job_id) (Some queue)), st3)
              | (Raise e, st3) => Some (Raise e, st3)
              | (Ok job, st3) => Some (Ok (Some (job, queue)), st3)
              end
          end
      end
  end.

(** [isinstance(other, Queue)]: every class of queue.py is a [Queue]. *)
Definition isinstance_Queue (other : PyObj) : bool :=
  match other with
  | PyQueue _ => true
  | _ => false
  end.

(** [Queue.__eq__]. *)
Definition __eq__ (self : Queue) (other : PyObj) : Result bool :=
  match other with
  | PyQueue o => Ok (bool_decide (name self = name o))
  | _ => Raise TypeError
  end.

(** [Queue.__lt__]. *)
Definition __lt__ (self : Queue) (other : PyObj) : Result bool :=
  match other with
  | PyQueue o => Ok (name_ltb (name self) (name o))
  | _ => Raise TypeError
  end.

(** [FailedQueue.quarantine]. *)
Definition quarantine (self : Queue) (job : Job) (exc_info : string) : M Job :=
  now ← utcnow;
  let job := set_ended_at (Some now) job in
  let job := set_exc_info (Some exc_info) job in
  enqueue_job self job false.

(** [FailedQueue.requeue]. *)
Definition requeue (self : Queue) (job_id : string) : M unit :=
  λ st,
    match Job_fetch job_id st with
    | (Raise NoSuchJobError, st1) =>
        (_ ← remove self (AnId job_id); mret tt) st1
    | (Raise e, st1) => (Raise e, st1)
    | (Ok job, st1) =>
        (n ← remove self (AJob job);
         if (n =? 0)%Z then raise InvalidJobOperationError
         else
           let job := set_status (Some QUEUED) job in
           let job := set_exc_info None job in
           let q := Queue_init (origin job) in
           _ ← enqueue_job q job true;
           mret tt) st1
    end.

(** The body of the [for] loop in the part of [release_job] after
    [if True: return]. *)
Definition release_cascade_step (job : Job) (queue : Queue)
    (a_job_id : string) : M unit :=
  a_job ← Job_fetch a_job_id;
  let a_job := set_status (Some QUEUED) a_job in
  _ ← Job_save job;
  let a_queue :=
    if bool_decide (origin a_job ≠ name queue)
    then Queue_init (origin a_job) else queue in
  _ ← enqueue_job a_queue a_job true;
  mret tt.

Fixpoint for_each (body : string → M unit) (l : list string) : M unit :=
  match l with
  | [] => mret tt
  | x :: l' => _ ← body x; for_each body l'
  end.

(** The part of [release_job] after [if True: return], which no call
    reaches. *)
Definition release_cascade (job : Job) (queue : Queue) : M unit :=
  depend_count ← Redis.scard (dependents_key job);
  if (0 <? depend_count)%Z then
    (λ st, for_each (release_cascade_step job queue)
             (elements (Redis.smembers (dependents_key job) st)) st) : M unit
  else mret tt.

(** [release_job]. *)
Definition release_job (job_or_id : JobOrId) (queue_or_name : QueueOrName)
    : M unit :=
  job ← match job_or_id with
        | AnId i =>
            λ st, if Job_exists i st then Job_fetch i st
                  else raise NoSuchJobError st
        | AJob j => mret j
        end;
  if negb (is_deferred job) then raise InvalidJobOperationError
  else
    let queue := match queue_or_name with
                 | NoQueue => Queue_init (origin job)
                 | AQueue q => q
                 | AName n => Queue_init (Some n)
                 end in
    result ← Redis.srem "rq:deferred" (id job);
    if (result =? 0)%Z then raise NoSuchJobError
    else
      let job := set_status (Some QUEUED) job in
      _ ← Job_save job;
      _ ← enqueue_job queue job true;
      if true then mret tt
      else release_cascade job queue.

(** [Queue.release_job_here]. *)
Definition release_job_here (self : Queue) (job_or_id : JobOrId) : M unit :=
  release_job job_or_id (AQueue self).

(** [Queue.is_empty]. *)
Definition is_empty (self : Queue) : M bool :=
  n ← count self; mret (n =? 0)%Z.

(** [Queue.fetch_job]. *)
Definition fetch_job (self : Queue) (job_id : string) : M (option Job) :=
  λ st,
    match Job_fetch job_id st with
    | (Raise NoSuchJobError, st1) =>
        (_ ← remove self (AnId job_id); mret None) st1
    | (Raise e, st1) => (Raise e, st1)
    | (Ok job, st1) => (Ok (Some job), st1)
    end.

(** [Queue.get_job_ids]. *)
Definition get_job_ids (self : Queue) (offset length : Z) : M (list string) :=
  let start := offset in
  let end_ := if (0 <=? length)%Z then (offset + (length - 1))%Z else length in
  Redis.lrange_slice (key self) start end_.

(** The list comprehension of [Queue.get_jobs]. *)
Fixpoint fetch_each (self : Queue) (job_ids : list string)
    : M (list (option Job)) :=
  match job_ids with
  | [] => mret []
  | job_id :: rest =>
      job ← fetch_job self job_id;
      fetched ← fetch_each self rest;
      mret (job :: fetched)
  end.

(** [Queue.get_jobs]. *)
Definition get_jobs (self : Queue) (offset length : Z) : M (list Job) :=
  job_ids ← get_job_ids self offset length;
  fetched ← fetch_each self job_ids;
  mret (compact_list fetched).

(** The [for] loop of [Queue.empty]. *)
Fixpoint cancel_each (job_list : list Job) : M unit :=
  match job_list with
  | [] => mret tt
  | job :: rest => _ ← Job_cancel job; cancel_each rest
  end.

(** [Queue.empty]. *)
Definition Queue_empty (self : Queue) : M unit :=
  job_list ← get_jobs self 0 (-1);
  _ ← Redis.delete (key self);
  cancel_each job_list.

(** The list comprehension of [Queue.all]: the keys that are not the empty
    string, each through [from_queue_key]. *)
Fixpoint to_queues (rq_keys : list string) : M (list Queue) :=
  match rq_keys with
  | [] => mret []
  | rq_key :: rest =>
      if bool_decide (rq_key = "") then to_queues rest
      else
        q ← from_queue_key rq_key;
        qs ← to_queues rest;
        mret (q :: qs)
  end.

(** [Queue.all], called on the class [Queue]; the members of the registry
    come in the order of [elements]. *)
Definition Queue_all : M (list Queue) :=
  λ st, to_queues (elements (Redis.smembers (redis_queues_keys Queue_cls) st)) st.

End QueuePy.

(** ** Concrete instances, for running the model *)

(** An SPOP that takes the first member in the order of [elements]. *)
Definition first_pick : Picker :=
  mkPicker (λ s, head (elements s))
    (λ s x H, proj1 (elem_of_elements s x) (head_Some_elem_of _ _ H))
    (λ s H, leibniz_equiv _ _
              (elements_empty_inv s (proj1 (head_None (elements s)) H))).

(** A [perform] that returns and leaves the job as it was. *)
Definition perform_nothing : Job → M Job := λ j, mret j.

(** The empty store at time 0. *)
Definition empty_store : Store := mkStore ∅ ∅ ∅ 0.

(** The queue [default] with the ID [a] on it twice. *)
Definition store_twice : Store :=
  mkStore {["rq:queue:default" := ["a"; "b"; "a"]]} ∅ ∅ 0.

(** The failed queue with an ID on it that has no record. *)
Definition store_stale_failed : Store :=
  mkStore {["rq:queue:failed" := ["x"; "y"]]} ∅ ∅ 0.

(** A job that waits in the queue [low]. *)
Definition job_j1 : Job :=
  mkJob "j1" (Some QUEUED) (Some "low") (Some 180%Z) (Some 0%Z) None None [].

(** The queue [high] holds an ID without a record, the queue [low] the job
    [j1]. *)
Definition store_stale_high : Store :=
  mkStore {["rq:queue:high" := ["stale"]; "rq:queue:low" := ["j1"]]} ∅
          {["j1" := Decodable job_j1]} 0.

(** A deferred job [d], a finished job [p], and two jobs parked on [d]:
    [c1], whose only parent is [d], and [c2], whose recorded parent [p] has
    finished. *)
Definition job_d : Job :=
  mkJob "d" (Some DEFERRED) (Some "default") (Some 180%Z) (Some 0%Z) None None [].
Definition job_p : Job :=
  mkJob "p" (Some FINISHED) (Some "default") (Some 180%Z) (Some 0%Z) (Some 1%Z)
        None [].
Definition job_c1 : Job :=
  mkJob "c1" (Some DEFERRED) (Some "default") (Some 180%Z) None None None ["d"].
Definition job_c2 : Job :=
  mkJob "c2" (Some DEFERRED) (Some "default") (Some 180%Z) None None None ["p"].

Definition store_deferred : Store :=
  mkStore ∅
          {["rq:deferred" := {["d"]}; "rq:job:d:dependents" := {["c1"; "c2"]}]}
          {["d" := Decodable job_d; "p" := Decodable job_p;
            "c1" := Decodable job_c1; "c2" := Decodable job_c2]}
          7.

(** A failed job whose origin is the failed queue itself. *)
Definition job_f : Job :=
  mkJob "f" (Some FAILED) (Some "failed") (Some 200%Z) (Some 0%Z) None None [].

(** A failed job that came from the queue [fake]. *)
Definition job_fake : Job :=
  mkJob "k" (Some FAILED) (Some "fake") (Some 200%Z) (Some 0%Z) None None [].

(** A finished parent [P], a parent [P2] that still runs, and a job [c]
    that waits on both, parked on [P]; [c] came from the queue [low]. *)
Definition job_P : Job :=
  mkJob "P" (Some FINISHED) (Some "default") (Some 180%Z) (Some 0%Z) (Some 1%Z)
        None [].
Definition job_P2 : Job :=
  mkJob "P2" (Some STARTED) (Some "default") (Some 180%Z) (Some 0%Z) None None [].
Definition job_c : Job :=
  mkJob "c" (Some DEFERRED) (Some "low") (Some 180%Z) None None None ["P"; "P2"].

Definition store_parents : Store :=
  mkStore ∅
          {["rq:job:P:dependents" := {["c"]}]}
          {["P" := Decodable job_P; "P2" := Decodable job_P2;
            "c" := Decodable job_c]}
          9.

(** ** The vocabulary of the properties *)

(** How often [v] occurs in [l]. *)
Definition occurrences (v : string) (l : list string) : nat :=
  length (filter (λ x, x = v) l).

(** Every key of the list has no element. *)
Definition all_empty (keys : list string) (st : Store) : Prop :=
  Forall (λ k, Redis.lrange k st = []) keys.

(** How many entries the lists of the keys hold, a key counted as often
    as it is listed. *)
Definition entries (keys : list string) (st : Store) : nat :=
  sum_list ((λ k, length (Redis.lrange k st)) <$> keys).

(** The job as [enqueue_job] saves it when the clock reads [now]. *)
Definition stamped (self : Queue) (job : Job) (set_meta_data : bool) (now : Z)
    : Job :=
  let job := if set_meta_data
             then set_enqueued_at (Some now) (set_origin (name self) job)
             else job in
  if timeout job is None then set_timeout (Some DEFAULT_TIMEOUT) job else job.

(** The job that [job_or_id] resolves to: the instance itself, or what the
    record of the ID decodes to. *)
Definition resolves (job_or_id : JobOrId) (st : Store) (j : Job) : Prop :=
  match job_or_id with
  | AJob j' => j = j'
  | AnId i => ∃ j0, jobs st !! i = Some (Decodable j0) ∧ j = set_id i j0
  end.

(** The target queue of a release: the argument if supplied, else the queue
    named by the origin of the job. *)
Definition target_queue (queue_or_name : QueueOrName) (j : Job) : Queue :=
  match queue_or_name with
  | NoQueue => Queue_init (origin j)
  | AQueue q => q
  | AName n => Queue_init (Some n)
  end.

(** Every member of the reverse-dependency set of [job] has a record that
    decodes. *)
Definition dependents_loadable (job : Job) (st : Store) : Prop :=
  ∀ c, c ∈ Redis.smembers (dependents_key job) st →
       ∃ j, jobs st !! c = Some (Decodable j).

(** * Properties *)

(** ** What the commands of the store do to what can be read back *)

Ltac unfold_M := unfold mbind, M_bind, mret, M_ret, raise in *.

Section RedisFacts.

Lemma lrange_put_list (k k' : string) (l : list string) (st : Store) :
  Redis.lrange k' (Redis.put_list k l st)
  = if decide (k' = k) then l else Redis.lrange k' st.
Proof.
  unfold Redis.lrange, Redis.put_list.
  destruct l; simpl; case_decide; subst;
    rewrite ?lookup_delete_eq, ?lookup_insert_eq; try done;
    by rewrite ?lookup_delete_ne, ?lookup_insert_ne by done.
Qed.

Lemma lrange_put_list_eq (k : string) (l : list string) (st : Store) :
  Redis.lrange k (Redis.put_list k l st) = l.
Proof. rewrite lrange_put_list. by case_decide. Qed.

Lemma lrange_put_list_ne (k k' : string) (l : list string) (st : Store) :
  k' ≠ k → Redis.lrange k' (Redis.put_list k l st) = Redis.lrange k' st.
Proof. intros. rewrite lrange_put_list. by case_decide. Qed.

Lemma smembers_put_set (k k' : string) (s : gset string) (st : Store) :
  Redis.smembers k' (Redis.put_set k s st)
  = if decide (k' = k) then s else Redis.smembers k' st.
Proof.
  unfold Redis.smembers, Redis.put_set.
  destruct (decide (s = ∅)); simpl; case_decide; subst;
    rewrite ?lookup_delete_eq, ?lookup_insert_eq; try done;
    by rewrite ?lookup_delete_ne, ?lookup_insert_ne by done.
Qed.

Lemma difference_absent (s : gset string) (x : string) :
  x ∉ s → s ∖ {[x]} = s.
Proof.
  intros Hx. apply set_eq. intros y.
  rewrite elem_of_difference, elem_of_singleton.
  split; [tauto|]. intros Hy. split; [done|]. by intros ->.
Qed.

Lemma not_elem_of_difference_self (s : gset string) (x : string) :
  x ∉ s ∖ {[x]}.
Proof. rewrite elem_of_difference, elem_of_singleton. tauto. Qed.

Lemma sets_put_list k l st : sets (Redis.put_list k l st) = sets st.
Proof. by destruct l. Qed.
Lemma jobs_put_list k l st : jobs (Redis.put_list k l st) = jobs st.
Proof. by destruct l. Qed.
Lemma clock_put_list k l st : clock (Redis.put_list k l st) = clock st.
Proof. by destruct l. Qed.
Lemma lists_put_set k s st : lists (Redis.put_set k s st) = lists st.
Proof. unfold Redis.put_set. by case_decide. Qed.
Lemma jobs_put_set k s st : jobs (Redis.put_set k s st) = jobs st.
Proof. unfold Redis.put_set. by case_decide. Qed.
Lemma clock_put_set k s st : clock (Redis.put_set k s st) = clock st.
Proof. unfold Redis.put_set. by case_decide. Qed.

Lemma lrange_put_set k k' s st :
  Redis.lrange k' (Redis.put_set k s st) = Redis.lrange k' st.
Proof. unfold Redis.lrange. by rewrite lists_put_set. Qed.
Lemma smembers_put_list k k' l st :
  Redis.smembers k' (Redis.put_list k l st) = Redis.smembers k' st.
Proof. unfold Redis.smembers. by rewrite sets_put_list. Qed.
Lemma lrange_with_jobs f k st :
  Redis.lrange k (with_jobs f st) = Redis.lrange k st.
Proof. done. Qed.
Lemma smembers_with_jobs f k st :
  Redis.smembers k (with_jobs f st) = Redis.smembers k st.
Proof. done. Qed.

Lemma Job_exists_jobs i st st' :
  jobs st' = jobs st → Job_exists i st' = Job_exists i st.
Proof. unfold Job_exists. by intros ->. Qed.

Lemma set_id_id j : set_id (id j) j = j.
Proof. by destruct j. Qed.

Lemma length_filter_split (v : string) (l : list string) :
  length l = (occurrences v l + length (filter (λ x, x ≠ v) l))%nat.
Proof.
  unfold occurrences. induction l as [|x l IH]; [done|].
  rewrite !filter_cons. destruct (decide (x = v)); case_decide; try done;
    simpl; lia.
Qed.

Lemma occurrences_0 (v : string) (l : list string) :
  occurrences v l = 0%nat ↔ v ∉ l.
Proof.
  unfold occurrences. induction l as [|x l IH].
  - split; [intros _; apply not_elem_of_nil | done].
  - rewrite filter_cons, not_elem_of_cons.
    case_decide; subst; simpl.
    + split; [lia | by intros [? _]].
    + rewrite IH. intuition congruence.
Qed.

Lemma filter_absent (v : string) (l : list string) :
  v ∉ l → filter (λ x, x ≠ v) l = l.
Proof.
  induction l as [|x l IH]; [done|].
  rewrite not_elem_of_cons. intros [Hx Hl].
  rewrite filter_cons_True by congruence. by rewrite IH.
Qed.

Lemma lrem_all (k v : string) (st : Store) :
  Redis.lrem k 0 v st
  = (Ok (Z.of_nat (occurrences v (Redis.lrange k st))),
     Redis.put_list k (filter (λ x, x ≠ v) (Redis.lrange k st)) st).
Proof.
  unfold Redis.lrem. simpl. do 2 f_equal.
  rewrite (length_filter_split v (Redis.lrange k st)) at 1. f_equal. lia.
Qed.

End RedisFacts.

(** ** Comparing queues *)

(** C10.  For every queue [q] and every value [x] that is not an instance
    of [Queue] or of a subclass, [q == x] and [q < x] both raise
    [TypeError]: neither comparison answers a truth value. *)
Theorem compare_with_non_queue_raises (q : Queue) (x : PyObj) :
  isinstance_Queue x = false →
  __eq__ q x = Raise TypeError ∧ __lt__ q x = Raise TypeError ∧
  (∀ b, __eq__ q x ≠ Ok b) ∧ (∀ b, __lt__ q x ≠ Ok b).
Proof.
  intros Hx. destruct x; try discriminate Hx; simpl; repeat split; congruence.
Qed.

Lemma compare_with_non_queue_raises_witness :
  isinstance_Queue (PyStr "default") = false ∧
  __eq__ (Queue_init (Some "default")) (PyStr "default") = Raise TypeError ∧
  __lt__ (Queue_init (Some "default")) (PyStr "default") = Raise TypeError.
Proof.
  split; [reflexivity|].
  pose proof (compare_with_non_queue_raises
                (Queue_init (Some "default")) (PyStr "default") eq_refl)
    as (He & Hl & _).
  exact (conj He Hl).
Defined.

(** ** Removing from a queue *)

(** C8, as stated, fails: with two occurrences of the ID on the list,
    [remove] answers 2, which is neither 0 nor 1. *)
Lemma remove_count_counterexample :
  fst (remove (Queue_init (Some "default")) (AnId "a") store_twice) = Ok 2%Z ∧
  Redis.lrange "rq:queue:default"
    (snd (remove (Queue_init (Some "default")) (AnId "a") store_twice)) = ["b"] ∧
  ¬ (2 = 0 ∨ 2 = 1)%Z.
Proof. split; [|split]; [by vm_compute | by vm_compute | lia]. Qed.

(** C8, amended.  [remove(job_or_id)] deletes all occurrences of the ID
    from the FIFO list of the queue, keeps the other entries in order, and
    answers the number of occurrences it deleted: 0 exactly when the ID was
    absent, 1 when it occurred once. *)
Theorem remove_all_occurrences (self : Queue) (job_or_id : JobOrId) (st : Store) :
  let job_id := match job_or_id with AJob j => id j | AnId i => i end in
  let l := Redis.lrange (key self) st in
  ∃ st',
    remove self job_or_id st = (Ok (Z.of_nat (occurrences job_id l)), st') ∧
    Redis.lrange (key self) st' = filter (λ x, x ≠ job_id) l ∧
    (job_id ∉ Redis.lrange (key self) st') ∧
    (occurrences job_id l = 0%nat ↔ job_id ∉ l).
Proof.
  intros job_id l. eexists. split; [apply lrem_all|].
  rewrite lrange_put_list_eq. split; [done|]. split.
  - rewrite list_elem_of_filter. tauto.
  - apply occurrences_0.
Qed.

(** ** Requeueing an ID that has no record *)

(** C9, as stated, fails: [requeue] of an ID without a record takes the
    occurrences of that ID off the failed queue. *)
Lemma requeue_missing_counterexample :
  jobs store_stale_failed !! "x" = None ∧
  Redis.lrange (key get_failed_queue) store_stale_failed = ["x"; "y"] ∧
  fst (requeue perform_nothing get_failed_queue "x" store_stale_failed) = Ok tt ∧
  Redis.lrange (key get_failed_queue)
    (snd (requeue perform_nothing get_failed_queue "x" store_stale_failed))
  = ["y"].
Proof. repeat split; by vm_compute. Qed.

(** C9, amended.  For every job ID with no backing Job Record,
    [requeue(job_id)] returns without raising; it removes the occurrences
    of that ID from the FIFO list of the failed queue and leaves the rest of
    that list, every other list, the sets, the job records and the clock as
    they were. *)
Theorem requeue_missing_removes_id
    (perform : Job → M Job) (job_id : string) (st : Store) :
  jobs st !! job_id = None →
  ∃ st',
    requeue perform get_failed_queue job_id st = (Ok tt, st') ∧
    Redis.lrange (key get_failed_queue) st'
    = filter (λ x, x ≠ job_id) (Redis.lrange (key get_failed_queue) st) ∧
    (∀ k, k ≠ key get_failed_queue → Redis.lrange k st' = Redis.lrange k st) ∧
    (job_id ∉ Redis.lrange (key get_failed_queue) st →
     ∀ k, Redis.lrange k st' = Redis.lrange k st) ∧
    sets st' = sets st ∧ jobs st' = jobs st ∧ clock st' = clock st.
Proof.
  intros Hno. unfold requeue, Job_fetch. rewrite Hno.
  unfold_M. unfold remove. rewrite lrem_all. eexists. split; [done|].
  rewrite lrange_put_list_eq, sets_put_list, jobs_put_list, clock_put_list.
  repeat split; try done.
  - intros k Hk. by rewrite lrange_put_list_ne.
  - intros Hnot k. rewrite lrange_put_list. case_decide; [subst|done].
    by apply filter_absent.
Qed.

Lemma requeue_missing_removes_id_witness :
  ∃ st',
    requeue perform_nothing get_failed_queue "x" store_stale_failed = (Ok tt, st') ∧
    Redis.lrange (key get_failed_queue) st' = ["y"].
Proof.
  destruct (requeue_missing_removes_id perform_nothing "x" store_stale_failed)
    as (st' & Hrun & Hl & _); [by vm_compute|].
  exists st'. split; [exact Hrun|]. rewrite Hl. by vm_compute.
Defined.

(** ** Dequeueing from several queues *)

Section DequeueAny.


Lemma blpop_accepts_range (t : Z) :
  (0 < t ≤ 2 ^ 32)%Z → Redis.blpop_accepts t = true.
Proof.
  intros Ht. unfold Redis.blpop_accepts.
  apply andb_true_intro. split; [apply Z.leb_le|apply Z.leb_le]; lia.
Qed.




Lemma lpop_each_all_empty (keys : list string) (st : Store) :
  all_empty keys st → lpop_each keys st = (Ok None, st).
Proof.
  induction 1 as [|k keys Hk _ IH]; simpl; [done|].
  unfold_M. unfold Redis.lpop. by rewrite Hk.
Qed.

Lemma lpop_each_first (ks1 ks2 : list string) (k i : string)
    (l : list string) (st : Store) :
  all_empty ks1 st → Redis.lrange k st = i :: l →
  lpop_each (ks1 ++ k :: ks2) st = (Ok (Some (k, i)), Redis.put_list k l st).
Proof.
  intros Hks Hk. induction Hks as [|k1 ks1 Hk1 _ IH]; simpl;
    unfold_M; unfold Redis.lpop.
  - by rewrite Hk.
  - by rewrite Hk1.
Qed.

Lemma from_queue_key_plain (n : string) (st : Store) :
  from_queue_key ("rq:queue:" ++ n) st = (Ok (Queue_init (Some n)), st).
Proof. unfold from_queue_key. simpl. by destruct n. Qed.

Lemma from_queue_key_other_prefix (q : Queue) (st : Store) :
  redis_queue_namespace_prefix (klass q)
  ≠ redis_queue_namespace_prefix Queue_cls →
  from_queue_key (key q) st = (Raise ValueError, st).
Proof.
  intros Hcls. unfold key. destruct (klass q); try done; by vm_compute.
Qed.

Lemma blpop_first (ks1 ks2 : list string) (k i : string) (l : list string)
    (t : Z) (st : Store) :
  Redis.blpop_accepts t = true →
  all_empty ks1 st → Redis.lrange k st = i :: l →
  Redis.blpop (ks1 ++ k :: ks2) t st
  = (Ok (Some (k, i)), Redis.put_list k l st).
Proof.
  intros Ht Hks Hk.
  assert (Hscan : Redis.blpop_scan (ks1 ++ k :: ks2) st
                  = (Ok (Some (k, i)), Redis.put_list k l st)).
  { induction Hks as [|k1 ks1 Hk1 _ IH]; simpl.
    - by rewrite Hk.
    - by rewrite Hk1. }
  unfold Redis.blpop. rewrite Ht.
  by destruct ks1.
Qed.

(** The timeout is none, or a number of seconds that is positive and at
    most [2 ^ 32], which the store takes whatever its clock reads. *)
Definition timeout_ok (timeout : option Z) : Prop :=
  match timeout with
  | None => True
  | Some t => (0 < t ≤ 2 ^ 32)%Z
  end.

Lemma lpop_first (ks1 ks2 : list string) (k i : string) (l : list string)
    (timeout : option Z) (st : Store) :
  timeout_ok timeout →
  all_empty ks1 st → Redis.lrange k st = i :: l →
  lpop (ks1 ++ k :: ks2) timeout st
  = (Ok (Some (k, i)), Redis.put_list k l st).
Proof.
  intros Ht Hks Hk. unfold lpop. destruct timeout as [t|].
  - simpl in Ht. destruct (Z.eqb_spec t 0) as [->|_]; [lia|].
    unfold_M.
    by rewrite (blpop_first _ _ _ _ _ _ _ (blpop_accepts_range t Ht) Hks Hk).
  - by apply lpop_each_first.
Qed.

(** One call of [dequeue_any] when some queue has an entry: the head of
    the first non-empty queue is popped, whatever follows. *)
Lemma dequeue_any_head
    (fuel : nat) (qs1 qs2 : list Queue) (q : Queue) (i : string)
    (l : list string) (timeout : option Z) (st : Store) :
  timeout_ok timeout →
  all_empty (key <$> qs1) st →
  Redis.lrange (key q) st = i :: l →
  (redis_queue_namespace_prefix (klass q)
   ≠ redis_queue_namespace_prefix Queue_cls →
   dequeue_any (S fuel) (qs1 ++ q :: qs2) timeout st
   = Some (Raise ValueError, Redis.put_list (key q) l st)) ∧
  (redis_queue_namespace_prefix (klass q)
   = redis_queue_namespace_prefix Queue_cls →
   (∀ j, jobs st !! i = Some (Decodable j) →
      dequeue_any (S fuel) (qs1 ++ q :: qs2) timeout st
      = Some (Ok (Some (set_id i j, Queue_init (Some (str_of (name q))))),
              Redis.put_list (key q) l st)) ∧
   (jobs st !! i = Some Undecodable →
      dequeue_any (S fuel) (qs1 ++ q :: qs2) timeout st
      = Some (Raise (UnpickleError (Some i)
                       (Some (Queue_init (Some (str_of (name q)))))),
              Redis.put_list (key q) l st)) ∧
   (jobs st !! i = None →
      dequeue_any (S fuel) (qs1 ++ q :: qs2) timeout st
      = dequeue_any fuel (qs1 ++ q :: qs2) timeout
          (Redis.put_list (key q) l st))).
Proof.
  intros Ht Hqs1 Hq.
  assert (Hpop : lpop (key <$> (qs1 ++ q :: qs2)%list) timeout st
                 = (Ok (Some (key q, i)), Redis.put_list (key q) l st)).
  { rewrite fmap_app, fmap_cons. by apply lpop_first. }
  split.
  - intros Hcls. cbn [dequeue_any]. rewrite Hpop.
    by rewrite from_queue_key_other_prefix.
  - intros Hcls.
    assert (Hfrom : from_queue_key (key q) (Redis.put_list (key q) l st)
                    = (Ok (Queue_init (Some (str_of (name q)))),
                       Redis.put_list (key q) l st)).
    { unfold key at 1. rewrite Hcls. apply from_queue_key_plain. }
    split; [|split].
    + intros j Hj. cbn [dequeue_any]. rewrite Hpop, Hfrom. unfold Job_fetch.
      by rewrite jobs_put_list, Hj.
    + intros Hj. cbn [dequeue_any]. rewrite Hpop, Hfrom. unfold Job_fetch.
      by rewrite jobs_put_list, Hj.
    + intros Hj. cbn [dequeue_any]. rewrite Hpop, Hfrom. unfold Job_fetch.
      by rewrite jobs_put_list, Hj.
Qed.

Lemma entries_put_list (keys : list string) (k i : string) (l : list string)
    (st : Store) :
  Redis.lrange k st = i :: l →
  (entries keys (Redis.put_list k l st) ≤ entries keys st)%nat ∧
  (k ∈ keys → entries keys (Redis.put_list k l st) < entries keys st).
Proof.
  intros Hk.
  assert (Hcons : ∀ k' ks st', entries (k' :: ks) st'
                  = length (Redis.lrange k' st') + entries ks st') by done.
  induction keys as [|k' keys [IHle IHlt]].
  { split; [done|]. intros Hin. by apply elem_of_nil in Hin. }
  rewrite !Hcons, lrange_put_list. destruct (decide (k' = k)) as [->|Hne].
  - rewrite Hk. simpl. split; [lia|]. intros _. lia.
  - split; [lia|]. intros Hin. apply elem_of_cons in Hin as [->|Hin]; [done|].
    specialize (IHlt Hin). lia.
Qed.

Lemma lpop_each_hit (keys : list string) (k i : string) (st st1 : Store) :
  lpop_each keys st = (Ok (Some (k, i)), st1) →
  k ∈ keys ∧ ∃ l, Redis.lrange k st = i :: l ∧ st1 = Redis.put_list k l st.
Proof.
  induction keys as [|k' keys IH]; simpl; unfold_M; [done|].
  unfold Redis.lpop. destruct (Redis.lrange k' st) as [|x l] eqn:Hk'.
  - intros Hrun. destruct (IH Hrun) as (Hin & Hl).
    split; [by apply list_elem_of_further|exact Hl].
  - intros Hrun. injection Hrun as -> -> <-.
    split; [apply list_elem_of_here|]. by exists l.
Qed.

Lemma blpop_scan_hit (keys : list string) (k i : string) (st st1 : Store) :
  Redis.blpop_scan keys st = (Ok (Some (k, i)), st1) →
  k ∈ keys ∧ ∃ l, Redis.lrange k st = i :: l ∧ st1 = Redis.put_list k l st.
Proof.
  induction keys as [|k' keys IH]; simpl; unfold_M; [done|].
  destruct (Redis.lrange k' st) as [|x l] eqn:Hk'.
  - intros Hrun. destruct (IH Hrun) as (Hin & Hl).
    split; [by apply list_elem_of_further|exact Hl].
  - intros Hrun. injection Hrun as -> -> <-.
    split; [apply list_elem_of_here|]. by exists l.
Qed.

Lemma lpop_hit (keys : list string) (timeout : option Z) (k i : string)
    (st st1 : Store) :
  lpop keys timeout st = (Ok (Some (k, i)), st1) →
  k ∈ keys ∧ ∃ l, Redis.lrange k st = i :: l ∧ st1 = Redis.put_list k l st.
Proof.
  unfold lpop. destruct timeout as [t|]; [|apply lpop_each_hit].
  destruct (t =? 0)%Z; unfold_M; [done|].
  destruct (Redis.blpop keys t st) as [[[[k' i']|]|e] st'] eqn:Hb; try done.
  intros Hrun. injection Hrun as -> -> ->.
  apply blpop_scan_hit. revert Hb. unfold Redis.blpop.
  destruct keys; [done|]. by destruct (Redis.blpop_accepts t).
Qed.

(** [dequeue_any] ends: every call of itself follows a pop from one of the
    lists. *)
Lemma dequeue_any_returns (queues : list Queue) (timeout : option Z)
    (fuel : nat) :
  ∀ st : Store,
    entries (key <$> queues) st < fuel →
    ∃ r st', dequeue_any fuel queues timeout st = Some (r, st').
Proof.
  induction fuel as [|fuel IH]; intros st Hfuel; [lia|].
  cbn [dequeue_any].
  destruct (lpop (key <$> queues) timeout st) as [[[[k i]|]|e] st1] eqn:Hpop;
    [|by eexists _, _..].
  apply lpop_hit in Hpop as (Hin & l & Hl & ->).
  destruct (entries_put_list (key <$> queues) k i l st Hl) as [_ Hlt].
  specialize (Hlt Hin).
  unfold from_queue_key.
  destruct (String.prefix (redis_queue_namespace_prefix Queue_cls) k);
    unfold_M; cbn [negb]; [|by eexists _, _].
  unfold Job_fetch.
  destruct (jobs (Redis.put_list k l st) !! i) as [[j|]|];
    [by eexists _, _..|].
  apply IH. lia.
Qed.

End DequeueAny.




(** C6, as stated, fails: the head of the first non-empty queue, [high],
    has no record; [dequeue_any] pops it, calls itself, pops a second ID
    from [low] and returns the pair of [low]. *)
Lemma dequeue_any_counterexample :
  Redis.lrange "rq:queue:high" store_stale_high = ["stale"] ∧
  ∃ st',
    dequeue_any 2 [Queue_init (Some "high"); Queue_init (Some "low")] None
                store_stale_high
    = Some (Ok (Some (job_j1, Queue_init (Some "low"))), st') ∧
    Redis.lrange "rq:queue:high" st' = [] ∧
    Redis.lrange "rq:queue:low" st' = [].
Proof. split; [by vm_compute|]. eexists. repeat split; by vm_compute. Qed.

(** C6, amended.  With timeout none, [dequeue_any] pops the head ID of the
    first queue in the supplied order whose list is non-empty, in every
    case.  What it does next depends on that queue and that ID.  When the
    class of the queue has a key prefix other than that of plain queues,
    it fails with [ValueError].  Otherwise, when the ID has a Job Record
    that decodes, it pops nothing else and returns the job with a [Queue]
    of that queue's name; when the record does not decode, it fails with
    [UnpickleError] carrying the ID and that [Queue]; when the ID has no
    record, it starts over on the lists as the pop left them, so it may
    pop further IDs and return the pair of a later queue.  When every
    supplied queue is empty, the empty list of queues included, it returns
    none and pops nothing.  The call always ends: it starts over at most
    as many times as the lists of the queues hold entries. *)
Theorem dequeue_any_first_hit (fuel : nat) (st : Store) :
  (∀ (qs1 qs2 : list Queue) (q : Queue) (i : string) (l : list string),
     all_empty (key <$> qs1) st →
     Redis.lrange (key q) st = i :: l →
     (redis_queue_namespace_prefix (klass q)
      ≠ redis_queue_namespace_prefix Queue_cls →
      dequeue_any (S fuel) (qs1 ++ q :: qs2) None st
      = Some (Raise ValueError, Redis.put_list (key q) l st)) ∧
     (redis_queue_namespace_prefix (klass q)
      = redis_queue_namespace_prefix Queue_cls →
      (∀ j, jobs st !! i = Some (Decodable j) →
         dequeue_any (S fuel) (qs1 ++ q :: qs2) None st
         = Some (Ok (Some (set_id i j, Queue_init (Some (str_of (name q))))),
                 Redis.put_list (key q) l st)) ∧
      (jobs st !! i = Some Undecodable →
         dequeue_any (S fuel) (qs1 ++ q :: qs2) None st
         = Some (Raise (UnpickleError (Some i)
                          (Some (Queue_init (Some (str_of (name q)))))),
                 Redis.put_list (key q) l st)) ∧
      (jobs st !! i = None →
         dequeue_any (S fuel) (qs1 ++ q :: qs2) None st
         = dequeue_any fuel (qs1 ++ q :: qs2) None
             (Redis.put_list (key q) l st)))) ∧
  (∀ queues : list Queue,
     all_empty (key <$> queues) st →
     dequeue_any (S fuel) queues None st = Some (Ok None, st)) ∧
  dequeue_any (S fuel) [] None st = Some (Ok None, st) ∧
  (∀ (queues : list Queue) (enough : nat),
     entries (key <$> queues) st < enough →
     ∃ r st', dequeue_any enough queues None st = Some (r, st')).
Proof.
  split; [|split; [|split; [done|]]].
  - intros qs1 qs2 q i l Hqs1 Hq. by apply dequeue_any_head.
  - intros queues Hempty. simpl. by rewrite lpop_each_all_empty.
  - intros queues enough Henough. by apply dequeue_any_returns.
Qed.

Lemma dequeue_any_first_hit_witness :
  dequeue_any 1 [Queue_init (Some "high"); Queue_init (Some "low")] None
    (snd (Redis.lpop "rq:queue:high" store_stale_high))
  = Some (Ok (Some (job_j1, Queue_init (Some "low"))),
          Redis.put_list "rq:queue:low" []
            (snd (Redis.lpop "rq:queue:high" store_stale_high))).
Proof.
  exact (proj1 (proj2 (proj1 (dequeue_any_first_hit 0
                  (snd (Redis.lpop "rq:queue:high" store_stale_high)))
           [Queue_init (Some "high")] [] (Queue_init (Some "low")) "j1" []
           ltac:(repeat constructor) ltac:(by vm_compute)) eq_refl)
           job_j1 ltac:(by vm_compute)).
Defined.

(** ** Compacting a queue *)

Section Compact.

Lemma filter_exists_jobs (st st' : Store) (l : list string) :
  jobs st' = jobs st →
  filter (λ i, Job_exists i st') l = filter (λ i, Job_exists i st) l.
Proof.
  intros Hjobs. apply list_filter_iff. intros x.
  by rewrite (Job_exists_jobs x st st').
Qed.

Lemma compact_loop_drains (self : Queue) (scratch : string) :
  scratch ≠ key self →
  ∀ (fuel : nat) (st : Store),
    length (Redis.lrange scratch st) < fuel →
    ∃ st',
      compact_loop fuel self scratch st = Some (Ok tt, st') ∧
      Redis.lrange (key self) st'
      = (Redis.lrange (key self) st
         ++ filter (λ i, Job_exists i st) (Redis.lrange scratch st))%list ∧
      Redis.lrange scratch st' = [] ∧
      sets st' = sets st ∧ jobs st' = jobs st ∧ clock st' = clock st.
Proof.
  intros Hne fuel. induction fuel as [|fuel IH]; intros st Hlen; [lia|].
  simpl. unfold Redis.lpop.
  destruct (Redis.lrange scratch st) as [|i l] eqn:Hscratch.
  { exists st. by rewrite Hscratch, filter_nil, app_nil_r. }
  simpl in Hlen.
  set (st1 := Redis.put_list scratch l st).
  assert (Hs1 : Redis.lrange scratch st1 = l)
    by apply lrange_put_list_eq.
  assert (Hk1 : Redis.lrange (key self) st1 = Redis.lrange (key self) st)
    by (apply lrange_put_list_ne; congruence).
  assert (Hj1 : jobs st1 = jobs st) by apply jobs_put_list.
  rewrite (Job_exists_jobs i st st1 Hj1), filter_cons.
  destruct (Job_exists i st) eqn:Hex; simpl.
  - rewrite Hk1.
    set (st2 := Redis.put_list (key self) _ st1).
    assert (Hs2 : Redis.lrange scratch st2 = l).
    { unfold st2. by rewrite lrange_put_list_ne. }
    assert (Hk2 : Redis.lrange (key self) st2
                  = (Redis.lrange (key self) st ++ [i])%list)
      by apply lrange_put_list_eq.
    assert (Hj2 : jobs st2 = jobs st).
    { unfold st2. by rewrite jobs_put_list. }
    destruct (IH st2) as (st' & Hrun & Hkey & Hscr & Hsets & Hjobs & Hclock).
    { rewrite Hs2. lia. }
    exists st'. split; [done|].
    rewrite Hkey, Hk2, Hs2, (filter_exists_jobs st st2 l Hj2), <- app_assoc.
    rewrite Hscr, Hsets, Hjobs, Hclock, Hj2.
    unfold st2, st1.
    by rewrite !sets_put_list, !clock_put_list.
  - destruct (IH st1) as (st' & Hrun & Hkey & Hscr & Hsets & Hjobs & Hclock).
    { rewrite Hs1. lia. }
    exists st'. split; [done|].
    rewrite Hkey, Hk1, Hs1, (filter_exists_jobs st st1 l Hj1).
    rewrite Hscr, Hsets, Hjobs, Hclock, Hj1.
    unfold st1. by rewrite sets_put_list, clock_put_list.
Qed.

End Compact.

(** C7.  For every queue, [compact()] removes from the FIFO list exactly
    the entries whose Job Record no longer exists; the entries that have a
    record all stay, in their FIFO order.  The drain of the scratch key
    ends, and on a queue that has entries [compact()] returns. *)
Theorem compact_keeps_extant_in_order
    (fuel : nat) (self : Queue) (uuid : string) (st : Store) :
  COMPACT_QUEUE self uuid ≠ key self →
  length (Redis.lrange (key self) st) < fuel →
  ∃ r st',
    compact fuel self uuid st = Some (r, st') ∧
    Redis.lrange (key self) st'
    = filter (λ i, Job_exists i st) (Redis.lrange (key self) st) ∧
    jobs st' = jobs st ∧
    (Redis.lrange (key self) st ≠ [] → r = Ok tt).
Proof.
  intros Hne Hlen. unfold compact, Redis.rename.
  destruct (Redis.lrange (key self) st) as [|i l] eqn:Hl.
  { exists (Raise ResponseError), st. by rewrite Hl. }
  set (st1 := with_lists _ st).
  assert (Hscratch : Redis.lrange (COMPACT_QUEUE self uuid) st1 = i :: l).
  { unfold Redis.lrange, st1. simpl. by rewrite lookup_insert_eq. }
  assert (Hkey : Redis.lrange (key self) st1 = []).
  { unfold Redis.lrange, st1. simpl.
    by rewrite lookup_insert_ne, lookup_delete_eq. }
  destruct (compact_loop_drains self _ Hne fuel st1)
    as (st' & Hrun & Hk & _ & _ & Hjobs & _).
  { rewrite Hscratch. exact Hlen. }
  exists (Ok tt), st'. split; [done|].
  rewrite Hk, Hkey, Hscratch, Hjobs. simpl. repeat split; try done.
Qed.

Lemma compact_keeps_extant_in_order_witness :
  ∃ r st',
    compact 3 (Queue_init (Some "low")) "u4" 
      (snd (Redis.rpush "rq:queue:low" "stale" store_stale_high)) = Some (r, st') ∧
    Redis.lrange "rq:queue:low" st' = ["j1"].
Proof.
  destruct (compact_keeps_extant_in_order 3 (Queue_init (Some "low")) "u4"
              (snd (Redis.rpush "rq:queue:low" "stale" store_stale_high)))
    as (r & st' & Hrun & Hl & _).
  - by vm_compute.
  - vm_compute. lia.
  - exists r, st'. split; [exact Hrun|].
    etransitivity; [exact Hl|]. by vm_compute.
Defined.

(** ** Enqueueing a job *)

Section EnqueueJob.

Variable perform : Job → M Job.

Lemma id_stamped self job smd now : id (stamped self job smd now) = id job.
Proof.
  unfold stamped. destruct smd; simpl.
  - by destruct (timeout job).
  - by destruct (timeout job).
Qed.

Lemma status_stamped self job smd now :
  status (stamped self job smd now) = status job.
Proof.
  unfold stamped. destruct smd; simpl.
  - by destruct (timeout job).
  - by destruct (timeout job).
Qed.

Lemma dependencies_stamped self job smd now :
  dependencies (stamped self job smd now) = dependencies job.
Proof.
  unfold stamped. destruct smd; simpl.
  - by destruct (timeout job).
  - by destruct (timeout job).
Qed.

Lemma exc_info_stamped self job smd now :
  exc_info (stamped self job smd now) = exc_info job.
Proof.
  unfold stamped. destruct smd; simpl.
  - by destruct (timeout job).
  - by destruct (timeout job).
Qed.

Lemma timeout_stamped self job smd now t :
  timeout job = Some t → timeout (stamped self job smd now) = Some t.
Proof.
  intros Ht. unfold stamped. destruct smd; simpl; by rewrite Ht.
Qed.

Lemma origin_stamped self job now :
  origin (stamped self job true now) = name self.
Proof. unfold stamped. simpl. by destruct (timeout job). Qed.

Lemma origin_stamped_keep self job now :
  origin (stamped self job false now) = origin job.
Proof. unfold stamped. simpl. by destruct (timeout job). Qed.

(** On a queue in async mode, [enqueue_job] registers the key of the
    queue, saves the stamped job and appends its ID to the list. *)
Lemma enqueue_job_async (self : Queue) (job : Job) (smd : bool) (st : Store) :
  async self = true →
  ∃ st',
    enqueue_job perform self job smd st
    = (Ok (stamped self job smd (clock st)), st') ∧
    (∀ k, Redis.lrange k st'
          = if decide (k = key self)
            then (Redis.lrange k st ++ [id job])%list
            else Redis.lrange k st) ∧
    jobs st' = <[id job := Decodable (stamped self job smd (clock st))]> (jobs st) ∧
    (∀ k, Redis.smembers k st'
          = if decide (k = redis_queues_keys (klass self))
            then {[key self]} ∪ Redis.smembers k st
            else Redis.smembers k st) ∧
    clock st' = clock st.
Proof.
  intros Hasync. unfold enqueue_job. unfold_M.
  unfold Redis.sadd, utcnow, Job_save, push_job_id, Redis.rpush.
  rewrite Hasync.
  destruct smd; simpl; unfold stamped; simpl; rewrite ?clock_put_set.
  all: eexists; split; [reflexivity|].
  all: rewrite ?jobs_put_list, ?clock_put_list; simpl;
    rewrite ?jobs_put_set, ?clock_put_set.
  all: destruct (timeout job); simpl.
  all: repeat split; try done.
  all: intros k; rewrite ?lrange_put_list, ?smembers_put_list; simpl;
    rewrite ?lrange_with_jobs, ?smembers_with_jobs, ?lrange_put_set,
      ?smembers_put_set; try done.
  all: case_decide; subst; try done.
Qed.

End EnqueueJob.

(** ** Releasing a deferred job *)

Section ReleaseJob.

Variable perform : Job → M Job.

Lemma registry_not_deferred (c : QueueClass) : redis_queues_keys c ≠ "rq:deferred".
Proof. by destruct c. Qed.

Lemma dependents_key_not_deferred (j : Job) : dependents_key j ≠ "rq:deferred".
Proof. unfold dependents_key. intros H. discriminate H. Qed.

Lemma dependents_key_not_registry (j : Job) (c : QueueClass) :
  dependents_key j ≠ redis_queues_keys c.
Proof. unfold dependents_key. destruct c; intros H; discriminate H. Qed.

(** [release_job] up to the removal from the Deferred Set. *)
Lemma release_job_resolved (job_or_id : JobOrId) (qn : QueueOrName)
    (st : Store) (j : Job) :
  resolves job_or_id st j →
  release_job perform job_or_id qn st
  = if negb (is_deferred j) then (Raise InvalidJobOperationError, st)
    else
      let st1 := Redis.put_set "rq:deferred"
                   (Redis.smembers "rq:deferred" st ∖ {[id j]}) st in
      if decide (id j ∈ Redis.smembers "rq:deferred" st) then
        (_ ← enqueue_job perform (target_queue qn j)
               (set_status (Some QUEUED) j) true;
         mret tt)
          (with_jobs (<[id j := Decodable (set_status (Some QUEUED) j)]>) st1)
      else (Raise NoSuchJobError, st1).
Proof.
  intros Hres.
  assert (Hbody : ∀ first : M Job, first st = (Ok j, st) →
            (job ← first;
             if negb (is_deferred job) then raise InvalidJobOperationError
             else
               let queue := match qn with
                            | NoQueue => Queue_init (origin job)
                            | AQueue q => q
                            | AName n => Queue_init (Some n)
                            end in
               result ← Redis.srem "rq:deferred" (id job);
               if (result =? 0)%Z then raise NoSuchJobError
               else
                 let job := set_status (Some QUEUED) job in
                 _ ← Job_save job;
                 _ ← enqueue_job perform queue job true;
                 if true then mret tt
                 else release_cascade perform job queue) st
            = if negb (is_deferred j) then (Raise InvalidJobOperationError, st)
              else
                let st1 := Redis.put_set "rq:deferred"
                             (Redis.smembers "rq:deferred" st ∖ {[id j]}) st in
                if decide (id j ∈ Redis.smembers "rq:deferred" st) then
                  (_ ← enqueue_job perform (target_queue qn j)
                         (set_status (Some QUEUED) j) true;
                   mret tt)
                    (with_jobs (<[id j := Decodable (set_status (Some QUEUED) j)]>)
                               st1)
                else (Raise NoSuchJobError, st1)).
  { intros first Hfirst. unfold_M. rewrite Hfirst.
    destruct (is_deferred j); simpl; [|done].
    unfold Redis.srem. case_decide; simpl; [|done].
    unfold Job_save. fold (target_queue qn j). simpl.
    by destruct (enqueue_job _ _ _ _ _) as [[?|?] ?]. }
  unfold release_job. apply Hbody.
  destruct job_or_id as [j'|i]; simpl in Hres.
  - by subst.
  - destruct Hres as (j0 & Hj0 & ->). unfold Job_exists, Job_fetch.
    rewrite Hj0. by rewrite bool_decide_eq_true_2.
Qed.

End ReleaseJob.

(** C3.  [release_job(job_or_id, target?)] fails with [NoSuchJobError] on
    an ID that has no record; fails with [InvalidJobOperationError] when the
    status of the resolved job is not [DEFERRED]; fails with
    [NoSuchJobError] when the ID of the job is not in the Deferred Set at
    the removal; and otherwise takes the ID out of the Deferred Set, sets
    the status to [QUEUED], persists the job and enqueues it with
    [enqueue_job] on the target queue: the argument if supplied, else the
    queue named by the origin of the job.  On a target in async mode the
    call returns, the saved record has status [QUEUED] and the ID is at the
    tail of the list of the target. *)
Theorem release_job_outcomes
    (perform : Job → M Job) (job_or_id : JobOrId) (qn : QueueOrName) (st : Store) :
  (∀ i, job_or_id = AnId i → jobs st !! i = None →
     release_job perform job_or_id qn st = (Raise NoSuchJobError, st)) ∧
  (∀ j, resolves job_or_id st j → status j ≠ Some DEFERRED →
     release_job perform job_or_id qn st = (Raise InvalidJobOperationError, st)) ∧
  (∀ j, resolves job_or_id st j → status j = Some DEFERRED →
     id j ∉ Redis.smembers "rq:deferred" st →
     ∃ st',
       release_job perform job_or_id qn st = (Raise NoSuchJobError, st') ∧
       lists st' = lists st ∧ jobs st' = jobs st ∧ clock st' = clock st ∧
       ∀ k, Redis.smembers k st' = Redis.smembers k st) ∧
  (∀ j, resolves job_or_id st j → status j = Some DEFERRED →
     id j ∈ Redis.smembers "rq:deferred" st →
     ∃ st1,
       (id j ∉ Redis.smembers "rq:deferred" st1) ∧
       jobs st1 = <[id j := Decodable (set_status (Some QUEUED) j)]> (jobs st) ∧
       lists st1 = lists st ∧
       release_job perform job_or_id qn st
       = (_ ← enqueue_job perform (target_queue qn j)
                (set_status (Some QUEUED) j) true;
          mret tt) st1 ∧
       (async (target_queue qn j) = true →
        ∃ st' j',
          release_job perform job_or_id qn st = (Ok tt, st') ∧
          (id j ∉ Redis.smembers "rq:deferred" st') ∧
          jobs st' !! id j = Some (Decodable j') ∧
          status j' = Some QUEUED ∧ origin j' = name (target_queue qn j) ∧
          Redis.lrange (key (target_queue qn j)) st'
          = (Redis.lrange (key (target_queue qn j)) st ++ [id j])%list)).
Proof.
  repeat split.
  - intros i -> Hno. unfold release_job. unfold_M. unfold Job_exists.
    rewrite Hno. by rewrite bool_decide_eq_false_2 by (by intros [? ?]).
  - intros j Hres Hst. rewrite (release_job_resolved _ _ _ _ _ Hres).
    unfold is_deferred. by rewrite bool_decide_eq_false_2.
  - intros j Hres Hst Hnot. rewrite (release_job_resolved _ _ _ _ _ Hres).
    unfold is_deferred. rewrite bool_decide_eq_true_2 by done. simpl.
    case_decide; [done|]. eexists. split; [done|].
    rewrite lists_put_set, jobs_put_set, clock_put_set. repeat split.
    intros k. rewrite smembers_put_set. case_decide; [subst|done].
    by apply difference_absent.
  - intros j Hres Hst Hin. rewrite (release_job_resolved _ _ _ _ _ Hres).
    unfold is_deferred. rewrite bool_decide_eq_true_2 by done. simpl.
    case_decide; [|done]. eexists. split; [|split; [|split; [|split]]].
    4: reflexivity.
    + rewrite smembers_with_jobs, smembers_put_set.
      case_decide; [|done]. apply not_elem_of_difference_self.
    + simpl. by rewrite jobs_put_set.
    + simpl. by rewrite lists_put_set.
    + intros Hasync.
      destruct (enqueue_job_async perform (target_queue qn j)
                  (set_status (Some QUEUED) j) true
                  (with_jobs (<[id j := Decodable (set_status (Some QUEUED) j)]>)
                     (Redis.put_set "rq:deferred"
                        (Redis.smembers "rq:deferred" st ∖ {[id j]}) st))
                  Hasync)
        as (st' & Hrun & Hlists & Hjobs & Hsets & Hclock).
      exists st', (stamped (target_queue qn j) (set_status (Some QUEUED) j) true
                     (clock st)).
      unfold_M. rewrite Hrun. simpl in *. rewrite clock_put_set in Hjobs.
      split; [done|]. split; [|split; [|split; [|split]]].
      * rewrite Hsets. rewrite smembers_with_jobs, smembers_put_set.
        case_decide as Hk; [by apply eq_sym, registry_not_deferred in Hk|].
        case_decide; [|done]. apply not_elem_of_difference_self.
      * rewrite Hjobs. by rewrite lookup_insert_eq.
      * by rewrite status_stamped.
      * by rewrite origin_stamped.
      * rewrite Hlists. case_decide; [|done].
        by rewrite lrange_with_jobs, lrange_put_set.
Qed.

Lemma release_job_outcomes_witness :
  resolves (AJob job_d) store_deferred job_d ∧
  status job_d = Some DEFERRED ∧
  "d" ∈ Redis.smembers "rq:deferred" store_deferred ∧
  ∃ st' j',
    release_job perform_nothing (AJob job_d) NoQueue store_deferred = (Ok tt, st') ∧
    jobs st' !! "d" = Some (Decodable j') ∧
    status j' = Some QUEUED ∧
    Redis.lrange "rq:queue:default" st' = ["d"].
Proof.
  assert (Hin : "d" ∈ Redis.smembers "rq:deferred" store_deferred)
    by (by vm_compute).
  split; [reflexivity|]. split; [reflexivity|]. split; [exact Hin|].
  destruct (proj2 (proj2 (proj2
              (release_job_outcomes perform_nothing (AJob job_d) NoQueue
                 store_deferred)))
              job_d eq_refl eq_refl Hin)
    as (st1 & _ & _ & _ & _ & Hasync).
  destruct (Hasync eq_refl) as (st' & j' & Hrun & _ & Hj & Hst & _ & Hl).
  exists st', j'. repeat split; [exact Hrun | exact Hj | exact Hst |].
  etransitivity; [exact Hl|]. by vm_compute.
Defined.

(** C2, as stated, fails: [d] is deferred and has [c1] and [c2] in its
    reverse-dependency set; [c1] has no parent but [d], and the one
    recorded parent of [c2] has finished.  After [release_job(d)] both are
    as they were, status [DEFERRED], and the list of their origin queue
    holds [d] alone. *)
Lemma release_job_cascade_counterexample :
  ∃ st',
    release_job perform_nothing (AJob job_d) NoQueue store_deferred = (Ok tt, st') ∧
    Redis.smembers (dependents_key job_d) store_deferred = {["c1"; "c2"]} ∧
    dependencies job_c1 = [id job_d] ∧
    dependencies job_c2 = ["p"] ∧
    jobs st' !! "p" = Some (Decodable job_p) ∧ status job_p = Some FINISHED ∧
    jobs st' !! "c1" = Some (Decodable job_c1) ∧
    status job_c1 = Some DEFERRED ∧ origin job_c1 = Some "default" ∧
    jobs st' !! "c2" = Some (Decodable job_c2) ∧
    status job_c2 = Some DEFERRED ∧ origin job_c2 = Some "default" ∧
    Redis.lrange "rq:queue:default" st' = ["d"].
Proof. eexists. repeat split; by vm_compute. Qed.

(** C2, amended.  For every deferred job [j], a [release_job(j)] that
    returns, on a target queue in async mode, promotes none of the
    reverse-dependents of [j]: the reverse-dependency set of [j] and the
    record of every other job, its status with it, stay as they were, and
    the one ID added to a FIFO list is the ID of [j], at the tail of the
    target queue. *)
Theorem release_job_leaves_dependents
    (perform : Job → M Job) (job_or_id : JobOrId) (qn : QueueOrName)
    (st st' : Store) (j : Job) :
  resolves job_or_id st j →
  async (target_queue qn j) = true →
  release_job perform job_or_id qn st = (Ok tt, st') →
  Redis.smembers (dependents_key j) st' = Redis.smembers (dependents_key j) st ∧
  (∀ c, c ≠ id j → jobs st' !! c = jobs st !! c) ∧
  (∀ k, k ≠ key (target_queue qn j) → Redis.lrange k st' = Redis.lrange k st) ∧
  Redis.lrange (key (target_queue qn j)) st'
  = (Redis.lrange (key (target_queue qn j)) st ++ [id j])%list.
Proof.
  intros Hres Hasync. rewrite (release_job_resolved _ _ _ _ _ Hres).
  destruct (is_deferred j); simpl; [|done].
  case_decide; [|done].
  destruct (enqueue_job_async perform (target_queue qn j)
              (set_status (Some QUEUED) j) true
              (with_jobs (<[id j := Decodable (set_status (Some QUEUED) j)]>)
                 (Redis.put_set "rq:deferred"
                    (Redis.smembers "rq:deferred" st ∖ {[id j]}) st))
              Hasync)
    as (st2 & Hrun & Hlists & Hjobs & Hsets & _).
  unfold_M. rewrite Hrun. intros [= <-]. simpl in *.
  split; [|split; [|split]].
  - rewrite Hsets.
    case_decide as Hk; [by apply dependents_key_not_registry in Hk|].
    rewrite smembers_with_jobs, smembers_put_set.
    case_decide as Hd; [by apply dependents_key_not_deferred in Hd|done].
  - intros c Hc. rewrite Hjobs, jobs_put_set.
    by rewrite !lookup_insert_ne by done.
  - intros k Hk. rewrite Hlists. case_decide; [done|].
    by rewrite lrange_with_jobs, lrange_put_set.
  - rewrite Hlists. case_decide; [|done].
    by rewrite lrange_with_jobs, lrange_put_set.
Qed.

Lemma release_job_leaves_dependents_witness :
  Redis.smembers (dependents_key job_d)
    (snd (release_job perform_nothing (AJob job_d) NoQueue store_deferred))
  = Redis.smembers (dependents_key job_d) store_deferred ∧
  jobs (snd (release_job perform_nothing (AJob job_d) NoQueue store_deferred))
    !! "c1" = jobs store_deferred !! "c1".
Proof.
  destruct (release_job_leaves_dependents perform_nothing (AJob job_d) NoQueue
              store_deferred
              (snd (release_job perform_nothing (AJob job_d) NoQueue store_deferred))
              job_d eq_refl eq_refl)
    as (Hs & Hj & _).
  - by vm_compute.
  - split; [exact Hs|]. apply Hj. by vm_compute.
Defined.

(** ** Quarantine and requeue *)

Section FailedQueue.

Variable perform : Job → M Job.

Lemma set_id_same (i : string) (j : Job) : id j = i → set_id i j = j.
Proof. intros <-. apply set_id_id. Qed.

Lemma stamped_keep (self : Queue) (job : Job) (now t : Z) :
  timeout job = Some t → stamped self job false now = job.
Proof. intros Ht. unfold stamped. by rewrite Ht. Qed.

Lemma occurrences_snoc (v : string) (l : list string) :
  occurrences v (l ++ [v]) ≠ 0%nat.
Proof.
  rewrite occurrences_0. intros Hnot. apply Hnot.
  apply elem_of_app. right. apply list_elem_of_here.
Qed.

Lemma plain_key_inj (a b : string) : "rq:queue:" ++ a = "rq:queue:" ++ b → a = b.
Proof. intros H. by injection H. Qed.

Lemma quarantine_unfold (self : Queue) (job : Job) (e : string) (st : Store) :
  quarantine perform self job e st
  = enqueue_job perform self
      (set_exc_info (Some e) (set_ended_at (Some (clock st)) job)) false st.
Proof. done. Qed.

End FailedQueue.

(** C4, as stated, fails: the origin of a job can be the failed queue
    itself; then [requeue] puts the ID back on the failed queue. *)
Lemma quarantine_requeue_counterexample :
  origin job_f = Some "failed" ∧ timeout job_f = Some 200%Z ∧
  ∃ j1 st1 st2,
    quarantine perform_nothing get_failed_queue job_f "Some error" empty_store
    = (Ok j1, st1) ∧
    requeue perform_nothing get_failed_queue (id job_f) st1 = (Ok tt, st2) ∧
    Redis.lrange (key get_failed_queue) st2 = [id job_f].
Proof.
  split; [done|]. split; [done|]. do 3 eexists.
  split; [by vm_compute|]. split; by vm_compute.
Qed.

(** C4, amended.  For every job [j] with an origin and a timeout,
    [quarantine(j, e)] followed by [requeue(j.id)] leaves the ID of [j] in
    the queue named by its origin, with status [QUEUED], [exc_info] cleared
    and the timeout as it was; when the origin is not the failed queue
    itself, the failed queue no longer holds the ID. *)
Theorem quarantine_requeue_round_trip
    (perform : Job → M Job) (j : Job) (e : string) (st : Store)
    (o : string) (t : Z) :
  origin j = Some o → timeout j = Some t →
  ∃ j1 st1 st2 j2,
    quarantine perform get_failed_queue j e st = (Ok j1, st1) ∧
    requeue perform get_failed_queue (id j) st1 = (Ok tt, st2) ∧
    id j ∈ Redis.lrange (key (Queue_init (Some o))) st2 ∧
    (o ≠ Status_FAILED → id j ∉ Redis.lrange (key get_failed_queue) st2) ∧
    Job_fetch (id j) st2 = (Ok j2, st2) ∧
    status j2 = Some QUEUED ∧ exc_info j2 = None ∧
    timeout j2 = Some t ∧ origin j2 = Some o.
Proof.
  intros Ho Ht.
  set (jq := set_exc_info (Some e) (set_ended_at (Some (clock st)) j)).
  assert (Hidq : id jq = id j) by done.
  assert (Htq : timeout jq = Some t) by done.
  assert (Hoq : origin jq = Some o) by done.
  destruct (enqueue_job_async perform get_failed_queue jq false st eq_refl)
    as (st1 & Hrun1 & Hlists1 & Hjobs1 & _ & _).
  rewrite (stamped_keep _ _ _ _ Htq) in Hrun1, Hjobs1.
  set (jr := set_exc_info None (set_status (Some QUEUED) jq)).
  set (l1 := filter (λ x, x ≠ id j) (Redis.lrange (key get_failed_queue) st1)).
  set (st1' := Redis.put_list (key get_failed_queue) l1 st1).
  destruct (enqueue_job_async perform (Queue_init (Some o)) jr true st1' eq_refl)
    as (st2 & Hrun2 & Hlists2 & Hjobs2 & _ & _).
  set (j2 := stamped (Queue_init (Some o)) jr true (clock st1')) in *.
  exists jq, st1, st2, j2.
  split; [by rewrite quarantine_unfold|].
  split.
  { unfold requeue, Job_fetch. rewrite Hjobs1, Hidq, lookup_insert_eq.
    rewrite (set_id_same _ _ Hidq). unfold_M. unfold remove.
    rewrite lrem_all, Hidq.
    destruct (Z.eqb_spec
                (Z.of_nat (occurrences (id j)
                             (Redis.lrange (key get_failed_queue) st1))) 0)
      as [Hz|_].
    { exfalso. rewrite Hlists1 in Hz. rewrite decide_True in Hz by done.
      rewrite Hidq in Hz.
      apply (occurrences_snoc (id j) (Redis.lrange (key get_failed_queue) st)).
      lia. }
    simpl origin. rewrite Ho. fold jr. fold l1. fold st1'. by rewrite Hrun2. }
  split.
  { rewrite Hlists2, decide_True by done.
    apply elem_of_app. right. apply list_elem_of_here. }
  split.
  { intros Hne. rewrite Hlists2.
    rewrite decide_False.
    2:{ intros Hk. apply Hne. symmetry. by apply plain_key_inj. }
    unfold st1'. rewrite lrange_put_list_eq. unfold l1.
    rewrite list_elem_of_filter. tauto. }
  split.
  { unfold Job_fetch. rewrite Hjobs2. change (id jr) with (id j).
    rewrite lookup_insert_eq. rewrite set_id_same; [done|].
    unfold j2. by rewrite id_stamped. }
  unfold j2. rewrite status_stamped, exc_info_stamped, origin_stamped.
  by rewrite (timeout_stamped _ jr _ _ t).
Qed.

Lemma quarantine_requeue_round_trip_witness :
  ∃ j1 st1 st2 j2,
    quarantine perform_nothing get_failed_queue job_fake "Some error" empty_store
    = (Ok j1, st1) ∧
    requeue perform_nothing get_failed_queue "k" st1 = (Ok tt, st2) ∧
    "k" ∈ Redis.lrange "rq:queue:fake" st2 ∧
    ("k" ∉ Redis.lrange "rq:queue:failed" st2) ∧
    Job_fetch "k" st2 = (Ok j2, st2) ∧
    status j2 = Some QUEUED ∧ exc_info j2 = None ∧ timeout j2 = Some 200%Z.
Proof.
  destruct (quarantine_requeue_round_trip perform_nothing job_fake "Some error"
              empty_store "fake" 200%Z eq_refl eq_refl)
    as (j1 & st1 & st2 & j2 & H1 & H2 & H3 & H4 & H5 & H6 & H7 & H8 & _).
  exists j1, st1, st2, j2.
  split; [exact H1|]. split; [exact H2|]. split; [exact H3|].
  split; [apply H4; discriminate|].
  split; [exact H5|]. split; [exact H6|]. split; [exact H7|exact H8].
Defined.

(** ** Enqueueing the dependents of a job *)

(** C1, as stated, fails: [c] waits on [P] and on [P2], and [P2] has not
    finished; [enqueue_dependents(P)], called on the queue [default],
    enqueues [c] all the same, on [default] and not on the queue of its
    origin, and leaves its status [DEFERRED]. *)
Lemma enqueue_dependents_counterexample :
  dependencies job_c = ["P"; "P2"] ∧
  jobs store_parents !! "P2" = Some (Decodable job_P2) ∧
  status job_P2 = Some STARTED ∧
  origin job_c = Some "low" ∧
  ∃ st' j',
    enqueue_dependents perform_nothing first_pick 2 (Queue_init (Some "default"))
      job_P store_parents = Some (Ok tt, st') ∧
    Redis.lrange "rq:queue:default" st' = ["c"] ∧
    Redis.lrange "rq:queue:low" st' = [] ∧
    jobs st' !! "c" = Some (Decodable j') ∧
    status j' = Some DEFERRED.
Proof.
  split; [done|]. split; [by vm_compute|]. split; [done|]. split; [done|].
  do 2 eexists.
  split; [by vm_compute|]. split; [by vm_compute|]. split; [by vm_compute|].
  split; [by vm_compute|]. by vm_compute.
Qed.

Section EnqueueDependents.

Variable perform : Job → M Job.
Variable spop_choice : Picker.
Variable self : Queue.
Variable job : Job.
Hypothesis self_async : async self = true.

Let dk : string := dependents_key job.

Lemma dependents_loadable_dk (st : Store) :
  dependents_loadable job st →
  ∀ c, c ∈ Redis.smembers dk st → ∃ j, jobs st !! c = Some (Decodable j).
Proof. done. Qed.

Lemma size_remove_member (s : gset string) (x : string) :
  x ∈ s → size s = S (size (s ∖ {[x]})).
Proof.
  intros Hx. rewrite size_difference, size_singleton.
  - assert (size s ≠ 0); [|lia].
    intros Hz. apply size_empty_inv in Hz.
    apply (not_elem_of_empty (C := gset string) x). by rewrite <- Hz.
  - intros y. rewrite elem_of_singleton. by intros ->.
Qed.

Lemma enqueue_dependents_drains (fuel : nat) :
  ∀ st : Store,
    size (Redis.smembers dk st) < fuel →
    dependents_loadable job st →
    ∃ st',
      enqueue_dependents perform spop_choice fuel self job st
      = Some (Ok tt, st') ∧
      Redis.smembers dk st' = ∅ ∧
      clock st' = clock st ∧
      (∀ k, k ≠ key self → Redis.lrange k st' = Redis.lrange k st) ∧
      (∀ x, x ∈ Redis.lrange (key self) st → x ∈ Redis.lrange (key self) st') ∧
      (∀ c, c ∈ Redis.smembers dk st → c ∈ Redis.lrange (key self) st') ∧
      (∀ c, c ∉ Redis.smembers dk st → jobs st' !! c = jobs st !! c) ∧
      (∀ c j, c ∈ Redis.smembers dk st → jobs st !! c = Some (Decodable j) →
         jobs st' !! c
         = Some (Decodable (stamped self (set_id c j) true (clock st)))) ∧
      ∃ order : list string,
        Redis.lrange (key self) st'
        = (Redis.lrange (key self) st ++ order)%list ∧
        NoDup order ∧
        ∀ c, c ∈ order ↔ c ∈ Redis.smembers dk st.
Proof.
  induction fuel as [|fuel IH]; intros st Hsize Hload; [lia|].
  simpl. unfold Redis.spop. fold dk.
  destruct (spop_choice (Redis.smembers dk st)) as [x|] eqn:Hpick.
  2:{ apply pick_nonempty in Hpick. exists st. rewrite Hpick.
      do 8 (split; [done|]). exists [].
      split; [by rewrite (right_id_L [] (++))|]. split; [apply NoDup_nil_2|].
      intros c. split; intros Hc; [by apply elem_of_nil in Hc|].
      by apply not_elem_of_empty in Hc. }
  apply pick_elem_of in Hpick.
  set (st1 := Redis.put_set dk (Redis.smembers dk st ∖ {[x]}) st).
  destruct (Hload x Hpick) as (jx & Hjx).
  unfold_M. unfold Job_fetch at 1.
  assert (Hjobs1 : jobs st1 = jobs st) by apply jobs_put_set.
  rewrite Hjobs1, Hjx.
  destruct (enqueue_job_async perform self (set_id x jx) true st1 self_async)
    as (st2 & Hrun & Hlists2 & Hjobs2 & Hsets2 & Hclock2).
  rewrite Hrun. simpl id in *.
  assert (Hclock1 : clock st1 = clock st) by apply clock_put_set.
  assert (Hdk2 : Redis.smembers dk st2 = Redis.smembers dk st ∖ {[x]}).
  { rewrite Hsets2.
    rewrite decide_False by apply dependents_key_not_registry.
    unfold st1. rewrite smembers_put_set. by rewrite decide_True. }
  assert (Hl1 : ∀ k, Redis.lrange k st1 = Redis.lrange k st)
    by (intros k; apply lrange_put_set).
  destruct (IH st2) as (st' & Hloop & Hempty & Hclock & Hother & Hmono
                        & Hall & Hout & Hin & order & Horder & Hnodup & Hmem).
  { rewrite Hdk2. rewrite (size_remove_member _ _ Hpick) in Hsize. lia. }
  { intros c. fold dk. rewrite Hdk2, elem_of_difference, elem_of_singleton.
    intros [Hc Hne]. rewrite Hjobs2, lookup_insert_ne, Hjobs1 by done.
    by apply Hload. }
  exists st'. split; [exact Hloop|]. split; [exact Hempty|].
  split; [by rewrite Hclock, Hclock2|].
  split.
  { intros k Hk. rewrite (Hother k Hk), Hlists2, decide_False by done.
    apply Hl1. }
  split.
  { intros y Hy. apply Hmono. rewrite Hlists2, decide_True by done.
    apply elem_of_app. left. by rewrite Hl1. }
  split.
  { intros c Hc. destruct (decide (c = x)) as [->|Hne].
    - apply Hmono. rewrite Hlists2, decide_True by done.
      apply elem_of_app. right. apply list_elem_of_here.
    - apply Hall. rewrite Hdk2, elem_of_difference, elem_of_singleton.
      by split. }
  split.
  { intros c Hc. assert (c ≠ x) by (by intros ->).
    rewrite Hout.
    - by rewrite Hjobs2, lookup_insert_ne, Hjobs1 by done.
    - rewrite Hdk2, elem_of_difference. tauto. }
  split.
  { intros c j Hc Hj. destruct (decide (c = x)) as [->|Hne].
    - rewrite Hout by (rewrite Hdk2; apply not_elem_of_difference_self).
      rewrite Hjobs2, lookup_insert_eq, Hclock1.
      rewrite Hjx in Hj. by injection Hj as ->.
    - rewrite (Hin c j).
      + by rewrite Hclock2, Hclock1.
      + rewrite Hdk2, elem_of_difference, elem_of_singleton. by split.
      + by rewrite Hjobs2, lookup_insert_ne, Hjobs1 by done. }
  exists (x :: order). split; [|split].
  - rewrite Horder, Hlists2, decide_True, Hl1 by done.
    by rewrite <- app_assoc.
  - apply NoDup_cons. split; [|exact Hnodup].
    rewrite Hmem, Hdk2. apply not_elem_of_difference_self.
  - intros c. rewrite elem_of_cons, Hmem, Hdk2, elem_of_difference,
      elem_of_singleton.
    split.
    + intros [->|[Hc _]]; done.
    + intros Hc. destruct (decide (c = x)) as [->|Hne]; [by left|by right].
Qed.

End EnqueueDependents.

(** C1, amended.  For every parent job whose reverse-dependency set holds
    IDs of records that decode, [enqueue_dependents], on a queue in async
    mode, drains the set and, for every child ID it drains, loads the
    record of the child and enqueues it with [enqueue_job] on the queue it
    was called on, whatever the status of the other parents of the child.
    The IDs of the children are appended to the list of that queue: the
    list afterwards is the list before, followed by the IDs of the set,
    each once, in the order in which the store handed them out.  The
    origin of every child becomes the name of that queue, and its status
    and its parents stay as they were. *)
Theorem enqueue_dependents_enqueues_all
    (perform : Job → M Job) (spop_choice : Picker) (self : Queue) (job : Job)
    (fuel : nat) (st : Store) :
  async self = true →
  dependents_loadable job st →
  size (Redis.smembers (dependents_key job) st) < fuel →
  ∃ st',
    enqueue_dependents perform spop_choice fuel self job st = Some (Ok tt, st') ∧
    Redis.smembers (dependents_key job) st' = ∅ ∧
    (∃ order : list string,
       Redis.lrange (key self) st'
       = (Redis.lrange (key self) st ++ order)%list ∧
       NoDup order ∧
       ∀ c, c ∈ order ↔ c ∈ Redis.smembers (dependents_key job) st) ∧
    ∀ c, c ∈ Redis.smembers (dependents_key job) st →
      c ∈ Redis.lrange (key self) st' ∧
      ∃ j j',
        jobs st !! c = Some (Decodable j) ∧
        jobs st' !! c = Some (Decodable j') ∧
        status j' = status j ∧ origin j' = name self ∧
        dependencies j' = dependencies j.
Proof.
  intros Hasync Hload Hsize.
  destruct (enqueue_dependents_drains perform spop_choice self job Hasync
              fuel st Hsize Hload)
    as (st' & Hrun & Hempty & _ & _ & _ & Hall & _ & Hin & Horder).
  exists st'. split; [exact Hrun|]. split; [exact Hempty|].
  split; [exact Horder|].
  intros c Hc. split; [by apply Hall|].
  destruct (Hload c Hc) as (j & Hj).
  exists j, (stamped self (set_id c j) true (clock st)).
  split; [exact Hj|]. split; [by apply Hin|].
  by rewrite status_stamped, origin_stamped, dependencies_stamped.
Qed.

Lemma enqueue_dependents_enqueues_all_witness :
  ∃ st',
    enqueue_dependents perform_nothing first_pick 2 (Queue_init (Some "default"))
      job_P store_parents = Some (Ok tt, st') ∧
    "c" ∈ Redis.lrange (key (Queue_init (Some "default"))) st'.
Proof.
  destruct (enqueue_dependents_enqueues_all perform_nothing first_pick
              (Queue_init (Some "default")) job_P 2 store_parents eq_refl)
    as (st' & Hrun & _ & _ & Hall).
  - intros c Hc. assert (c = "c") as ->.
    { apply (elem_of_singleton (C := gset string)).
      by replace ({["c"]} : gset string)
        with (Redis.smembers (dependents_key job_P) store_parents)
        by (by vm_compute). }
    exists job_c. by vm_compute.
  - vm_compute. lia.
  - exists st'. split; [exact Hrun|]. apply Hall. by vm_compute.
Defined.

(** * Further properties of queue.py *)

(** ** Reading the job IDs of a queue *)

Ltac Z_known :=
  repeat match goal with
         | |- context [(?a <? ?b)%Z] => rewrite (proj2 (Z.ltb_lt a b)) by lia
         | |- context [(?a <? ?b)%Z] => rewrite (proj2 (Z.ltb_ge a b)) by lia
         | |- context [(?a <=? ?b)%Z] => rewrite (proj2 (Z.leb_le a b)) by lia
         | |- context [(?a <=? ?b)%Z] => rewrite (proj2 (Z.leb_gt a b)) by lia
         end.

Ltac Z_cases :=
  cbv zeta; Z_known;
  repeat (match goal with
          | |- context [(?a <? ?b)%Z] => destruct (Z.ltb_spec a b)
          | |- context [(?a <=? ?b)%Z] => destruct (Z.leb_spec a b)
          end; Z_known);
  simpl.

Lemma int64_range (z : Z) :
  (- 2 ^ 63 ≤ z ≤ 2 ^ 63 - 1)%Z → Redis.int64 z = true.
Proof.
  intros Hz. unfold Redis.int64.
  apply andb_true_intro. split; apply Z.leb_le; lia.
Qed.

Lemma int64_above (z : Z) : (2 ^ 63 - 1 < z)%Z → Redis.int64 z = false.
Proof.
  intros Hz. unfold Redis.int64.
  apply andb_false_intro2. apply Z.leb_gt. lia.
Qed.

Lemma get_job_ids_in_range (self : Queue) (offset length : Z) (st : Store) :
  Redis.int64 offset = true →
  Redis.int64 (if (0 <=? length)%Z then (offset + (length - 1))%Z else length)
  = true →
  get_job_ids self offset length st
  = (Ok (Redis.slice (Redis.lrange (key self) st) offset
           (if (0 <=? length)%Z then (offset + (length - 1))%Z else length)),
     st).
Proof.
  intros Hs He. unfold get_job_ids, Redis.lrange_slice. by rewrite Hs, He.
Qed.

Lemma get_job_ids_refused (self : Queue) (offset length : Z) (st : Store) :
  Redis.int64 offset = false ∨
  Redis.int64 (if (0 <=? length)%Z then (offset + (length - 1))%Z else length)
  = false →
  get_job_ids self offset length st = (Raise ResponseError, st).
Proof.
  intros Hcase. unfold get_job_ids, Redis.lrange_slice.
  destruct Hcase as [-> | ->]; [done|]. by rewrite andb_false_r.
Qed.

(** X1.  For an offset that is not negative and a length of at least 1,
    whose last index [offset + length - 1] is a signed 64-bit integer,
    [get_job_ids(offset, length)] is the slice of at most [length] IDs that
    starts at position [offset] of the FIFO list; it is shorter, or empty,
    where the list ends early.  The store is not changed.  When the last
    index is beyond the signed 64-bit integers the store refuses the
    command and [get_job_ids] fails with [ResponseError]. *)
Theorem get_job_ids_slice (self : Queue) (offset length : Z) (st : Store) :
  (0 ≤ offset)%Z → (1 ≤ length)%Z →
  ((offset + length - 1 ≤ 2 ^ 63 - 1)%Z →
   get_job_ids self offset length st
   = (Ok (take (Z.to_nat length)
            (drop (Z.to_nat offset) (Redis.lrange (key self) st))), st)) ∧
  ((2 ^ 63 - 1 < offset + length - 1)%Z →
   get_job_ids self offset length st = (Raise ResponseError, st)).
Proof.
  intros Hoff Hlen.
  assert (Hpos : (0 <=? length)%Z = true) by (apply Z.leb_le; lia).
  split.
  - intros Hmax. rewrite get_job_ids_in_range; rewrite ?Hpos;
      [|apply int64_range; lia|apply int64_range; lia].
    unfold Redis.slice.
    set (l := Redis.lrange (key self) st). f_equal. f_equal.
    Z_cases; try lia.
    + rewrite drop_ge by lia. by rewrite take_nil.
    + rewrite !take_ge; [done| |]; rewrite length_drop; lia.
    + f_equal. lia.
  - intros Hmax. apply get_job_ids_refused. right. rewrite Hpos.
    apply int64_above. lia.
Qed.

Lemma get_job_ids_slice_witness :
  (0 ≤ 1)%Z ∧ (1 ≤ 1)%Z ∧ (1 + 1 - 1 ≤ 2 ^ 63 - 1)%Z ∧
  get_job_ids (Queue_init (Some "default")) 1 1 store_twice = (Ok ["b"], store_twice).
Proof.
  assert (Hoff : (0 ≤ 1)%Z) by lia.
  assert (Hlen : (1 ≤ 1)%Z) by lia.
  assert (Hmax : (1 + 1 - 1 ≤ 2 ^ 63 - 1)%Z) by lia.
  split; [exact Hoff|]. split; [exact Hlen|]. split; [exact Hmax|].
  etransitivity.
  - exact (proj1 (get_job_ids_slice (Queue_init (Some "default")) 1 1
                    store_twice Hoff Hlen) Hmax).
  - by vm_compute.
Defined.

Lemma get_job_ids_full (self : Queue) (st : Store) :
  (∀ o : Z, (0 ≤ o ≤ 2 ^ 63 - 1)%Z →
     get_job_ids self o (-1) st
     = (Ok (drop (Z.to_nat o) (Redis.lrange (key self) st)), st)) ∧
  get_job_ids self 0 (-1) st = (Ok (Redis.lrange (key self) st), st).
Proof.
  assert (Hgen : ∀ o, (0 ≤ o ≤ 2 ^ 63 - 1)%Z →
            get_job_ids self o (-1) st
            = (Ok (drop (Z.to_nat o) (Redis.lrange (key self) st)), st)).
  { intros o Ho. rewrite get_job_ids_in_range;
      [|apply int64_range; lia|by vm_compute].
    unfold Redis.slice.
    set (l := Redis.lrange (key self) st). simpl. f_equal. f_equal.
    Z_cases; try lia.
    - rewrite drop_ge; [done|lia].
    - rewrite take_ge; [done|]. rewrite length_drop. lia. }
  split; [exact Hgen|]. rewrite Hgen; [done|lia].
Qed.

(** X2.  With the default length -1, [get_job_ids(offset)] is the list from
    position [offset] to its end, for every offset that is not negative
    and is a signed 64-bit integer; in particular [get_job_ids()] is the
    whole list.  An offset beyond the signed 64-bit integers is refused by
    the store: [get_job_ids] fails with [ResponseError]. *)
Theorem get_job_ids_to_end (self : Queue) (offset : Z) (st : Store) :
  ((0 ≤ offset ≤ 2 ^ 63 - 1)%Z →
   get_job_ids self offset (-1) st
   = (Ok (drop (Z.to_nat offset) (Redis.lrange (key self) st)), st)) ∧
  ((2 ^ 63 - 1 < offset)%Z →
   get_job_ids self offset (-1) st = (Raise ResponseError, st)) ∧
  get_job_ids self 0 (-1) st = (Ok (Redis.lrange (key self) st), st).
Proof.
  destruct (get_job_ids_full self st) as [Hgen Hall].
  split; [by apply Hgen|]. split; [|exact Hall].
  intros Hmax. apply get_job_ids_refused. left. by apply int64_above.
Qed.

Lemma get_job_ids_to_end_witness :
  (0 ≤ 1 ≤ 2 ^ 63 - 1)%Z ∧
  get_job_ids (Queue_init (Some "default")) 1 (-1) store_twice
  = (Ok ["b"; "a"], store_twice).
Proof.
  assert (Hoff : (0 ≤ 1 ≤ 2 ^ 63 - 1)%Z) by lia.
  split; [exact Hoff|].
  etransitivity.
  - exact (proj1 (get_job_ids_to_end (Queue_init (Some "default")) 1
                    store_twice) Hoff).
  - by vm_compute.
Defined.

(** X3.  A length of 0 does not give the empty slice at offset 0: the end
    index is then -1, which is the last element, and
    [get_job_ids(0, 0)] is the whole list.  At a positive offset that is a
    signed 64-bit integer a length of 0 gives no ID; at an offset beyond
    [2 ^ 63] the store refuses the command and [get_job_ids] fails with
    [ResponseError]. *)
Theorem get_job_ids_zero_length (self : Queue) (st : Store) :
  get_job_ids self 0 0 st = (Ok (Redis.lrange (key self) st), st) ∧
  (∀ offset : Z, (0 < offset ≤ 2 ^ 63 - 1)%Z →
     get_job_ids self offset 0 st = (Ok [], st)) ∧
  (∀ offset : Z, (2 ^ 63 - 1 < offset)%Z →
     get_job_ids self offset 0 st = (Raise ResponseError, st)).
Proof.
  split; [|split].
  - rewrite get_job_ids_in_range; [|by vm_compute|by vm_compute].
    unfold Redis.slice.
    set (l := Redis.lrange (key self) st). simpl. f_equal. f_equal.
    Z_cases; try lia.
    + clearbody l. destruct l; [done|simpl in *; lia].
    + change (Z.to_nat 0) with 0. rewrite drop_0, take_ge; [done|lia].
  - intros offset Hoff. rewrite get_job_ids_in_range;
      [|apply int64_range; lia|apply int64_range; simpl; lia].
    unfold Redis.slice.
    set (l := Redis.lrange (key self) st). simpl. f_equal. f_equal.
    Z_cases; try lia; done.
  - intros offset Hoff. apply get_job_ids_refused. left.
    apply int64_above. lia.
Qed.

Lemma get_job_ids_zero_length_witness :
  get_job_ids (Queue_init (Some "default")) 0 0 store_twice
  = (Ok ["a"; "b"; "a"], store_twice) ∧
  (0 < 2 ≤ 2 ^ 63 - 1)%Z ∧
  get_job_ids (Queue_init (Some "default")) 2 0 store_twice = (Ok [], store_twice).
Proof.
  destruct (get_job_ids_zero_length (Queue_init (Some "default")) store_twice)
    as [Hall [Hnone _]].
  assert (Hoff : (0 < 2 ≤ 2 ^ 63 - 1)%Z) by lia.
  split; [|split; [exact Hoff|]].
  - etransitivity; [exact Hall|]. by vm_compute.
  - by apply Hnone.
Defined.

(** ** Reading the jobs of a queue *)

(** What [Job.fetch] would load for an ID, if anything. *)
Definition loaded (st : Store) (i : string) : option Job :=
  match jobs st !! i with
  | Some (Decodable j) => Some (set_id i j)
  | _ => None
  end.

(** No ID of the list has a record that fails to decode. *)
Definition all_decode (ids : list string) (st : Store) : Prop :=
  ∀ i, i ∈ ids → jobs st !! i ≠ Some Undecodable.

Lemma fetch_job_parts (self : Queue) (job_id : string) (st : Store) :
  (∀ j, jobs st !! job_id = Some (Decodable j) →
     fetch_job self job_id st = (Ok (Some (set_id job_id j)), st)) ∧
  (jobs st !! job_id = Some Undecodable →
     fetch_job self job_id st = (Raise (UnpickleError None None), st)) ∧
  (jobs st !! job_id = None →
     ∃ st',
       fetch_job self job_id st = (Ok None, st') ∧
       Redis.lrange (key self) st'
       = filter (λ x, x ≠ job_id) (Redis.lrange (key self) st) ∧
       (∀ k, k ≠ key self → Redis.lrange k st' = Redis.lrange k st) ∧
       sets st' = sets st ∧ jobs st' = jobs st ∧ clock st' = clock st).
Proof.
  unfold fetch_job, Job_fetch. split; [|split].
  - by intros j ->.
  - by intros ->.
  - intros ->. unfold_M. unfold remove. rewrite lrem_all. eexists.
    split; [done|].
    rewrite lrange_put_list_eq, sets_put_list, jobs_put_list, clock_put_list.
    repeat split; try done. intros k Hk. by rewrite lrange_put_list_ne.
Qed.

(** X4.  [fetch_job] heals the queue as it reads: for an ID with a record
    that decodes it returns the job and changes nothing; for an ID with no
    record it returns none and removes every occurrence of the ID from the
    FIFO list of this queue, leaving everything else as it was; a record
    that does not decode raises [UnpickleError] and changes nothing. *)
Theorem fetch_job_self_heals (self : Queue) (job_id : string) (st : Store) :
  (∀ j, jobs st !! job_id = Some (Decodable j) →
     fetch_job self job_id st = (Ok (Some (set_id job_id j)), st)) ∧
  (jobs st !! job_id = Some Undecodable →
     fetch_job self job_id st = (Raise (UnpickleError None None), st)) ∧
  (jobs st !! job_id = None →
     ∃ st',
       fetch_job self job_id st = (Ok None, st') ∧
       Redis.lrange (key self) st'
       = filter (λ x, x ≠ job_id) (Redis.lrange (key self) st) ∧
       (∀ k, k ≠ key self → Redis.lrange k st' = Redis.lrange k st) ∧
       sets st' = sets st ∧ jobs st' = jobs st ∧ clock st' = clock st).
Proof.
  unfold fetch_job, Job_fetch. split; [|split].
  - by intros j ->.
  - by intros ->.
  - intros ->. unfold_M. unfold remove. rewrite lrem_all. eexists.
    split; [done|].
    rewrite lrange_put_list_eq, sets_put_list, jobs_put_list, clock_put_list.
    repeat split; try done. intros k Hk. by rewrite lrange_put_list_ne.
Qed.

Lemma fetch_job_self_heals_witness :
  ∃ st',
    fetch_job get_failed_queue "x" store_stale_failed = (Ok None, st') ∧
    Redis.lrange (key get_failed_queue) st' = ["y"].
Proof.
  destruct (proj2 (proj2 (fetch_job_self_heals get_failed_queue "x"
                            store_stale_failed)))
    as (st' & Hrun & Hl & _); [by vm_compute|].
  exists st'. split; [exact Hrun|]. etransitivity; [exact Hl|]. by vm_compute.
Defined.

Section GetJobs.

Variable self : Queue.

Lemma loaded_jobs (st st' : Store) (ids : list string) :
  jobs st' = jobs st → loaded st' <$> ids = loaded st <$> ids.
Proof.
  intros Hjobs. apply list_fmap_ext. intros _ i _. unfold loaded.
  by rewrite Hjobs.
Qed.

Lemma Job_exists_loaded (st : Store) (i : string) :
  jobs st !! i ≠ Some Undecodable →
  Job_exists i st = bool_decide (is_Some (loaded st i)).
Proof.
  intros Hdec. unfold Job_exists, loaded.
  destruct (jobs st !! i) as [[j|]|] eqn:Hi.
  - by rewrite !bool_decide_eq_true_2 by eauto.
  - done.
  - rewrite !bool_decide_eq_false_2; [done| |]; by intros [? ?].
Qed.

Lemma filter_all (P : string → Prop) `{!∀ x, Decision (P x)} (l : list string) :
  (∀ x, x ∈ l → P x) → filter P l = l.
Proof.
  induction l as [|x l IH]; intros Hall; [done|].
  rewrite filter_cons_True by (apply Hall; apply list_elem_of_here).
  rewrite IH; [done|]. intros y Hy. apply Hall. by apply list_elem_of_further.
Qed.

Lemma fetch_each_prunes (ids : list string) :
  ∀ st : Store,
    all_decode ids st →
    ∃ st',
      fetch_each self ids st = (Ok (loaded st <$> ids), st') ∧
      Redis.lrange (key self) st'
      = filter (λ x, x ∉ ids ∨ Job_exists x st) (Redis.lrange (key self) st) ∧
      (∀ k, k ≠ key self → Redis.lrange k st' = Redis.lrange k st) ∧
      sets st' = sets st ∧ jobs st' = jobs st ∧ clock st' = clock st.
Proof.
  induction ids as [|i ids IH]; intros st Hdec.
  { exists st. simpl. repeat split; try done.
    symmetry. apply filter_all. intros x _. left. apply not_elem_of_nil. }
  assert (Hdec' : ∀ st1, jobs st1 = jobs st → all_decode ids st1).
  { intros st1 Hj x Hx. rewrite Hj. apply Hdec. by apply list_elem_of_further. }
  simpl. unfold_M.
  destruct (fetch_job_parts self i st) as (Hsome & _ & Hnone).
  destruct (jobs st !! i) as [[j|]|] eqn:Hi.
  - rewrite (Hsome j eq_refl).
    destruct (IH st (Hdec' st eq_refl))
      as (st' & Hrun & Hl & Hother & Hsets & Hjobs & Hclock).
    rewrite Hrun. exists st'.
    assert (Hload : loaded st i = Some (set_id i j))
      by (unfold loaded; by rewrite Hi).
    rewrite ?fmap_cons, Hload.
    split; [done|]. split; [|done].
    rewrite Hl. apply list_filter_iff. intros x.
    rewrite not_elem_of_cons. split; [|tauto].
    intros [Hx|Hx]; [|tauto]. destruct (decide (x = i)) as [->|Hne]; [|tauto].
    right. unfold Job_exists. rewrite Hi. apply bool_decide_pack. eauto.
  - exfalso. apply (Hdec i); [apply list_elem_of_here|done].
  - destruct (Hnone eq_refl) as (st1 & Hrun1 & Hl1 & Hother1 & Hsets1 & Hjobs1
                                 & Hclock1).
    rewrite Hrun1.
    destruct (IH st1 (Hdec' st1 Hjobs1))
      as (st' & Hrun & Hl & Hother & Hsets & Hjobs & Hclock).
    rewrite Hrun. exists st'.
    assert (Hload : loaded st i = None) by (unfold loaded; by rewrite Hi).
    rewrite ?fmap_cons, Hload.
    rewrite (loaded_jobs st st1 ids Hjobs1).
    split; [done|]. split.
    + rewrite Hl, Hl1, list_filter_filter. apply list_filter_iff. intros x.
      rewrite (Job_exists_jobs x st st1 Hjobs1), not_elem_of_cons.
      split; [tauto|]. intros [[Hne Hx]|Hx]; [tauto|]. split; [tauto|].
      intros ->. unfold Job_exists in Hx. rewrite Hi in Hx.
      apply bool_decide_unpack in Hx. by destruct Hx.
    + split; [intros k Hk; by rewrite Hother, Hother1|].
      by rewrite Hsets, Hjobs, Hclock.
Qed.

End GetJobs.

Lemma filter_ext_in (P Q : string → Prop)
    `{!∀ x, Decision (P x)} `{!∀ x, Decision (Q x)} (l : list string) :
  (∀ x, x ∈ l → P x ↔ Q x) → filter P l = filter Q l.
Proof.
  induction l as [|x l IH]; intros Hext; [done|].
  assert (Hl : filter P l = filter Q l).
  { apply IH. intros y Hy. apply Hext. by apply list_elem_of_further. }
  pose proof (Hext x (list_elem_of_here _ _)) as Hx.
  rewrite !filter_cons, Hl.
  destruct (decide (P x)), (decide (Q x)); tauto || done.
Qed.

Lemma id_compact_loaded (st : Store) (l : list string) :
  all_decode l st →
  id <$> compact_list (loaded st <$> l) = filter (λ x, Job_exists x st) l.
Proof.
  induction l as [|i l IH]; intros Hdec; [done|].
  assert (Hl : all_decode l st)
    by (intros x Hx; apply Hdec; by apply list_elem_of_further).
  assert (Hi : jobs st !! i ≠ Some Undecodable)
    by (apply Hdec; apply list_elem_of_here).
  rewrite fmap_cons.
  destruct (jobs st !! i) as [[j|]|] eqn:Hrec; [| done |].
  - assert (Hload : loaded st i = Some (set_id i j))
      by (unfold loaded; by rewrite Hrec).
    rewrite Hload, filter_cons_True.
    + change (compact_list (Some (set_id i j) :: (loaded st <$> l)))
        with (set_id i j :: compact_list (loaded st <$> l)).
      rewrite fmap_cons. by rewrite IH.
    + unfold Job_exists. rewrite Hrec. apply bool_decide_pack. eauto.
  - assert (Hload : loaded st i = None) by (unfold loaded; by rewrite Hrec).
    rewrite Hload, filter_cons_False; [by apply IH|].
    unfold Job_exists. rewrite Hrec. intros H.
    apply bool_decide_unpack in H. by destruct H.
Qed.

(** X5.  When no record of a listed ID fails to decode, [get_jobs()]
    returns the jobs of the listed IDs that have a record, in the order of
    the list, and as a side effect removes from the FIFO list the IDs that
    have none; records, sets and other lists stay as they were. *)
Theorem get_jobs_prunes (self : Queue) (st : Store) :
  all_decode (Redis.lrange (key self) st) st →
  ∃ job_list st',
    get_jobs self 0 (-1) st = (Ok job_list, st') ∧
    job_list = compact_list (loaded st <$> Redis.lrange (key self) st) ∧
    id <$> job_list
    = filter (λ x, Job_exists x st) (Redis.lrange (key self) st) ∧
    Redis.lrange (key self) st'
    = filter (λ x, Job_exists x st) (Redis.lrange (key self) st) ∧
    (∀ k, k ≠ key self → Redis.lrange k st' = Redis.lrange k st) ∧
    sets st' = sets st ∧ jobs st' = jobs st ∧ clock st' = clock st.
Proof.
  intros Hdec. unfold get_jobs. unfold_M.
  rewrite (proj2 (get_job_ids_full self st)).
  destruct (fetch_each_prunes self _ st Hdec)
    as (st' & Hrun & Hl & Hother & Hsets & Hjobs & Hclock).
  rewrite Hrun. do 2 eexists. split; [done|]. split; [done|].
  split; [by apply id_compact_loaded|]. split; [|done].
  rewrite Hl. apply filter_ext_in. intros x Hx. tauto.
Qed.

(** The queue [low] with the job [j1] and, behind it, an ID without a
    record. *)
Definition store_low_stale : Store :=
  mkStore {["rq:queue:low" := ["j1"; "stale"]]} ∅ {["j1" := Decodable job_j1]} 0.

Lemma all_decode_low_stale :
  all_decode (Redis.lrange (key (Queue_init (Some "low"))) store_low_stale)
             store_low_stale.
Proof.
  intros i Hi. change (i ∈ ["j1"; "stale"]) in Hi.
  rewrite !elem_of_cons in Hi.
  destruct Hi as [->|[->|Hi]]; [by vm_compute | by vm_compute |].
  by apply not_elem_of_nil in Hi.
Qed.

Lemma get_jobs_prunes_witness :
  ∃ job_list st',
    get_jobs (Queue_init (Some "low")) 0 (-1) store_low_stale
    = (Ok job_list, st') ∧
    job_list = [job_j1] ∧
    Redis.lrange (key (Queue_init (Some "low"))) st' = ["j1"].
Proof.
  destruct (get_jobs_prunes (Queue_init (Some "low")) store_low_stale
              all_decode_low_stale)
    as (job_list & st' & Hrun & Hjobs & _ & Hl & _).
  exists job_list, st'. split; [exact Hrun|]. split.
  - etransitivity; [exact Hjobs|]. by vm_compute.
  - etransitivity; [exact Hl|]. by vm_compute.
Defined.

(** ** Emptying a queue *)

Lemma cancel_each_deletes (job_list : list Job) :
  ∀ st : Store,
    ∃ st',
      cancel_each job_list st = (Ok tt, st') ∧
      lists st' = lists st ∧ sets st' = sets st ∧ clock st' = clock st ∧
      ∀ i, jobs st' !! i
           = if decide (i ∈ id <$> job_list) then None else jobs st !! i.
Proof.
  induction job_list as [|j job_list IH]; intros st.
  { exists st. repeat split; done. }
  simpl. unfold_M. unfold Job_cancel at 1.
  destruct (IH (with_jobs (base.delete (id j)) st))
    as (st' & Hrun & Hlists & Hsets & Hclock & Hjobs).
  rewrite Hrun. exists st'. split; [done|]. split; [done|]. split; [done|].
  split; [done|]. intros i. rewrite Hjobs.
  change (list_fmap Job string id job_list) with (id <$> job_list). simpl.
  destruct (decide (i = id j)) as [->|Hne].
  - rewrite lookup_delete_eq, (decide_True (P := _ ∈ _ :: _))
      by apply list_elem_of_here.
    by case_decide.
  - rewrite lookup_delete_ne by done.
    destruct (decide (i ∈ id <$> job_list)) as [Hin|Hnot].
    + by rewrite decide_True by (by apply list_elem_of_further).
    + rewrite decide_False; [done|]. rewrite not_elem_of_cons. by split.
Qed.

(** X6.  When no record of a listed ID fails to decode, [empty()] returns
    and leaves the FIFO list of the queue empty and every ID that was on it
    without a record; the records of the jobs that were not on the list, the
    other lists and the sets stay as they were. *)
Theorem empty_deletes_listed_jobs (self : Queue) (st : Store) :
  all_decode (Redis.lrange (key self) st) st →
  ∃ st',
    Queue_empty self st = (Ok tt, st') ∧
    Redis.lrange (key self) st' = [] ∧
    (∀ i, i ∈ Redis.lrange (key self) st → jobs st' !! i = None) ∧
    (∀ i, i ∉ Redis.lrange (key self) st → jobs st' !! i = jobs st !! i) ∧
    (∀ k, k ≠ key self → Redis.lrange k st' = Redis.lrange k st) ∧
    sets st' = sets st.
Proof.
  intros Hdec. unfold Queue_empty. unfold_M.
  destruct (fetch_each_prunes self _ st Hdec)
    as (st1 & Hrun1 & Hl1 & Hother1 & Hsets1 & Hjobs1 & Hclock1).
  unfold get_jobs. unfold_M.
  rewrite (proj2 (get_job_ids_full self st)), Hrun1.
  unfold Redis.delete at 1.
  set (job_list := compact_list (loaded st <$> Redis.lrange (key self) st)).
  destruct (cancel_each_deletes job_list (with_lists (base.delete (key self)) st1))
    as (st' & Hrun & Hlists & Hsets & Hclock & Hjobs).
  rewrite Hrun. exists st'. split; [done|].
  assert (Hids : id <$> job_list
                 = filter (λ x, Job_exists x st) (Redis.lrange (key self) st))
    by (by apply id_compact_loaded).
  split; [|split; [|split; [|split]]].
  - unfold Redis.lrange. rewrite Hlists. simpl. by rewrite lookup_delete_eq.
  - intros i Hi. rewrite Hjobs, Hids. simpl. rewrite Hjobs1.
    case_decide as Hin; [done|].
    rewrite list_elem_of_filter in Hin.
    destruct (jobs st !! i) as [r|] eqn:Hrec; [|done].
    exfalso. apply Hin. split; [|done].
    unfold Job_exists. rewrite Hrec. apply bool_decide_pack. eauto.
  - intros i Hi. rewrite Hjobs, Hids. simpl. rewrite Hjobs1.
    rewrite decide_False; [done|]. rewrite list_elem_of_filter. tauto.
  - intros k Hk. rewrite <- (Hother1 k Hk). unfold Redis.lrange.
    rewrite Hlists. simpl. by rewrite lookup_delete_ne.
  - by rewrite Hsets.
Qed.

Lemma empty_deletes_listed_jobs_witness :
  ∃ st',
    Queue_empty (Queue_init (Some "low")) store_low_stale = (Ok tt, st') ∧
    Redis.lrange (key (Queue_init (Some "low"))) st' = [] ∧
    jobs st' !! "j1" = None.
Proof.
  destruct (empty_deletes_listed_jobs (Queue_init (Some "low")) store_low_stale
              all_decode_low_stale)
    as (st' & Hrun & Hl & Hgone & _).
  exists st'. split; [exact Hrun|]. split; [exact Hl|].
  apply Hgone. change ("j1" ∈ ["j1"; "stale"]). apply list_elem_of_here.
Defined.

(** ** Dequeueing from one queue *)

Section Dequeue.

Variable self : Queue.

(** The IDs of the list have no record. *)
Definition all_stale (ids : list string) (st : Store) : Prop :=
  ∀ x, x ∈ ids → jobs st !! x = None.

Lemma dequeue_drops_stale (stale : list string) :
  ∀ (st : Store) (tail : list string) (n : nat),
    Redis.lrange (key self) st = (stale ++ tail)%list →
    all_stale stale st →
    ∃ st1,
      dequeue (length stale + n) self st = dequeue n self st1 ∧
      Redis.lrange (key self) st1 = tail ∧
      (∀ k, k ≠ key self → Redis.lrange k st1 = Redis.lrange k st) ∧
      sets st1 = sets st ∧ jobs st1 = jobs st ∧ clock st1 = clock st.
Proof.
  induction stale as [|x stale IH]; intros st tail n Hl Hstale.
  { by exists st. }
  simpl. unfold pop_job_id, Redis.lpop. rewrite Hl. simpl.
  unfold Job_fetch. rewrite jobs_put_list, (Hstale x) by apply list_elem_of_here.
  destruct (IH (Redis.put_list (key self) (stale ++ tail) st) tail n)
    as (st1 & Hrun & Hl1 & Hother & Hsets & Hjobs & Hclock).
  { apply lrange_put_list_eq. }
  { intros y Hy. rewrite jobs_put_list. apply Hstale.
    by apply list_elem_of_further. }
  exists st1. split; [exact Hrun|]. split; [exact Hl1|].
  rewrite Hsets, Hjobs, Hclock, sets_put_list, jobs_put_list, clock_put_list.
  repeat split; try done.
  intros k Hk. by rewrite Hother, lrange_put_list_ne.
Qed.

End Dequeue.

(** X7.  [dequeue()] passes over the IDs at the head of the list that have
    no record and returns the job of the first ID that has one; the IDs it
    passed over and the ID it returns are off the list, what came behind
    stays in order, and nothing else changes. *)
Theorem dequeue_skips_stale
    (fuel : nat) (self : Queue) (stale rest : list string) (i : string)
    (j : Job) (st : Store) :
  Redis.lrange (key self) st = (stale ++ i :: rest)%list →
  all_stale stale st →
  jobs st !! i = Some (Decodable j) →
  length stale < fuel →
  ∃ st',
    dequeue fuel self st = Some (Ok (Some (set_id i j)), st') ∧
    Redis.lrange (key self) st' = rest ∧
    (∀ k, k ≠ key self → Redis.lrange k st' = Redis.lrange k st) ∧
    sets st' = sets st ∧ jobs st' = jobs st ∧ clock st' = clock st.
Proof.
  intros Hl Hstale Hi Hfuel.
  replace fuel with (length stale + S (fuel - length stale - 1)) by lia.
  destruct (dequeue_drops_stale self stale st (i :: rest)
              (S (fuel - length stale - 1)) Hl Hstale)
    as (st1 & Hrun & Hl1 & Hother & Hsets & Hjobs & Hclock).
  rewrite Hrun. simpl. unfold pop_job_id, Redis.lpop. rewrite Hl1.
  unfold Job_fetch. rewrite jobs_put_list, Hjobs, Hi.
  eexists. split; [done|].
  rewrite lrange_put_list_eq, sets_put_list, jobs_put_list, clock_put_list.
  repeat split; try done.
  intros k Hk. by rewrite lrange_put_list_ne, Hother.
Qed.

Lemma dequeue_skips_stale_witness :
  ∃ st',
    dequeue 2 (Queue_init (Some "high")) 
      (snd (Redis.rpush "rq:queue:high" "j1" store_stale_high))
    = Some (Ok (Some job_j1), st') ∧
    Redis.lrange (key (Queue_init (Some "high"))) st' = [].
Proof.
  destruct (dequeue_skips_stale 2 (Queue_init (Some "high")) ["stale"] [] "j1"
              job_j1 (snd (Redis.rpush "rq:queue:high" "j1" store_stale_high)))
    as (st' & Hrun & Hl & _).
  - by vm_compute.
  - intros x Hx. apply list_elem_of_singleton in Hx as ->. by vm_compute.
  - by vm_compute.
  - simpl. lia.
  - exists st'. split; [exact Hrun | exact Hl].
Defined.

(** X8.  On a queue whose list holds only IDs without a record, [dequeue()]
    returns none and leaves the list empty: it drains the stale IDs. *)
Theorem dequeue_drains_stale (fuel : nat) (self : Queue) (st : Store) :
  all_stale (Redis.lrange (key self) st) st →
  length (Redis.lrange (key self) st) < fuel →
  ∃ st',
    dequeue fuel self st = Some (Ok None, st') ∧
    Redis.lrange (key self) st' = [] ∧
    (∀ k, k ≠ key self → Redis.lrange k st' = Redis.lrange k st) ∧
    sets st' = sets st ∧ jobs st' = jobs st ∧ clock st' = clock st.
Proof.
  intros Hstale Hfuel.
  set (l := Redis.lrange (key self) st) in *.
  replace fuel with (length l + S (fuel - length l - 1)) by lia.
  destruct (dequeue_drops_stale self l st [] (S (fuel - length l - 1)))
    as (st1 & Hrun & Hl1 & Hother & Hsets & Hjobs & Hclock).
  { by rewrite app_nil_r. }
  { exact Hstale. }
  rewrite Hrun. simpl. unfold pop_job_id, Redis.lpop. rewrite Hl1.
  by exists st1.
Qed.

Lemma dequeue_drains_stale_witness :
  ∃ st',
    dequeue 2 (Queue_init (Some "high")) store_stale_high = Some (Ok None, st') ∧
    Redis.lrange (key (Queue_init (Some "high"))) st' = [].
Proof.
  destruct (dequeue_drains_stale 2 (Queue_init (Some "high")) store_stale_high)
    as (st' & Hrun & Hl & _).
  - intros x Hx. change (x ∈ ["stale"]) in Hx.
    apply list_elem_of_singleton in Hx as ->. by vm_compute.
  - vm_compute. lia.
  - exists st'. split; [exact Hrun | exact Hl].
Defined.

(** ** More on dequeueing from several queues *)

(** X9.  When the first non-empty queue in the supplied order is a queue
    whose key has the prefix of plain queues, and its head ID has a record
    that does not decode, [dequeue_any] raises [UnpickleError] with the ID
    and a [Queue] of that queue's name attached; the ID has been popped,
    and nothing else changes.  This holds without a timeout and with a
    positive one of at most [2 ^ 32] seconds. *)
Theorem dequeue_any_unpickle_error
    (fuel : nat) (qs1 qs2 : list Queue) (q : Queue) (i : string)
    (l : list string) (timeout : option Z) (st : Store) :
  timeout_ok timeout →
  all_empty (key <$> qs1) st →
  Redis.lrange (key q) st = i :: l →
  redis_queue_namespace_prefix (klass q)
  = redis_queue_namespace_prefix Queue_cls →
  jobs st !! i = Some Undecodable →
  dequeue_any (S fuel) (qs1 ++ q :: qs2) timeout st
  = Some (Raise (UnpickleError (Some i)
                   (Some (Queue_init (Some (str_of (name q)))))),
          Redis.put_list (key q) l st).
Proof.
  intros Ht Hqs1 Hq Hcls Hi.
  by apply (dequeue_any_head fuel qs1 qs2 q i l timeout st Ht Hqs1 Hq).
Qed.

(** The queue [low] holds an ID whose record does not decode. *)
Definition store_undecodable : Store :=
  mkStore {["rq:queue:low" := ["bad"; "j1"]]} ∅
          {["bad" := Undecodable; "j1" := Decodable job_j1]} 0.

Lemma dequeue_any_unpickle_error_witness :
  dequeue_any 1 [Queue_init (Some "high"); Queue_init (Some "low")] None
              store_undecodable
  = Some (Raise (UnpickleError (Some "bad") (Some (Queue_init (Some "low")))),
          Redis.put_list "rq:queue:low" ["j1"] store_undecodable).
Proof.
  exact (dequeue_any_unpickle_error 0 [Queue_init (Some "high")] []
           (Queue_init (Some "low")) "bad" ["j1"] None store_undecodable
           I ltac:(repeat constructor) ltac:(by vm_compute) eq_refl
           ltac:(by vm_compute)).
Defined.



(** ** Enqueueing, seen from outside *)

Lemma timeout_stamped_default self job smd now :
  timeout (stamped self job smd now) = Some (default DEFAULT_TIMEOUT (timeout job)).
Proof. destruct job as [? ? ? [t|] ? ? ? ?]; by destruct smd. Qed.

Lemma enqueued_at_stamped self job now :
  enqueued_at (stamped self job true now) = Some now.
Proof. unfold stamped. simpl. by destruct (timeout job). Qed.

Lemma enqueued_at_stamped_keep self job now :
  enqueued_at (stamped self job false now) = enqueued_at job.
Proof. unfold stamped. simpl. by destruct (timeout job). Qed.

(** X11.  On a queue in async mode, [enqueue_job] persists what it returns:
    fetching the ID afterwards gives the returned job.  The ID is at the
    tail of the FIFO list and the key of the queue is in the registry.  The
    status is left as it was; a missing timeout becomes 180 and a timeout
    that is set is kept; origin and [enqueued_at] are set to the name of
    the queue and the time of the call, unless [set_meta_data] is false,
    which keeps both. *)
Theorem enqueue_job_persists
    (perform : Job → M Job) (self : Queue) (job : Job) (set_meta_data : bool)
    (st : Store) :
  async self = true →
  ∃ j' st',
    enqueue_job perform self job set_meta_data st = (Ok j', st') ∧
    Job_fetch (id job) st' = (Ok j', st') ∧
    Redis.lrange (key self) st' = (Redis.lrange (key self) st ++ [id job])%list ∧
    key self ∈ Redis.smembers (redis_queues_keys (klass self)) st' ∧
    status j' = status job ∧
    timeout j' = Some (default 180%Z (timeout job)) ∧
    (if set_meta_data
     then origin j' = name self ∧ enqueued_at j' = Some (clock st)
     else origin j' = origin job ∧ enqueued_at j' = enqueued_at job).
Proof.
  intros Hasync.
  destruct (enqueue_job_async perform self job set_meta_data st Hasync)
    as (st' & Hrun & Hlists & Hjobs & Hsets & _).
  exists (stamped self job set_meta_data (clock st)), st'.
  split; [exact Hrun|]. split.
  { unfold Job_fetch. rewrite Hjobs, lookup_insert_eq.
    by rewrite set_id_same by apply id_stamped. }
  split; [by rewrite Hlists, decide_True|]. split.
  { rewrite Hsets, decide_True by done.
    apply elem_of_union. left. by apply elem_of_singleton. }
  split; [apply status_stamped|]. split; [apply timeout_stamped_default|].
  destruct set_meta_data.
  - split; [apply origin_stamped | apply enqueued_at_stamped].
  - split; [apply origin_stamped_keep | apply enqueued_at_stamped_keep].
Qed.

Lemma enqueue_job_persists_witness :
  ∃ j' st',
    enqueue_job perform_nothing (Queue_init (Some "high")) job_c true empty_store
    = (Ok j', st') ∧
    Job_fetch "c" st' = (Ok j', st') ∧
    origin j' = Some "high".
Proof.
  destruct (enqueue_job_persists perform_nothing (Queue_init (Some "high"))
              job_c true empty_store eq_refl)
    as (j' & st' & Hrun & Hfetch & _ & _ & _ & _ & Ho & _).
  exists j', st'. split; [exact Hrun|]. split; [exact Hfetch | exact Ho].
Defined.

(** X12.  Enqueue and dequeue are a round trip: on a queue in async mode
    whose list is empty, [enqueue_job] followed by [dequeue()] returns the
    job that [enqueue_job] returned, with the name of the queue as its
    origin, and leaves the list empty again. *)
Theorem enqueue_then_dequeue
    (perform : Job → M Job) (self : Queue) (job : Job) (fuel : nat) (st : Store) :
  async self = true →
  Redis.lrange (key self) st = [] →
  ∃ j' st1 st2,
    enqueue_job perform self job true st = (Ok j', st1) ∧
    dequeue (S fuel) self st1 = Some (Ok (Some j'), st2) ∧
    id j' = id job ∧ origin j' = name self ∧
    Redis.lrange (key self) st2 = [] ∧
    jobs st2 = jobs st1.
Proof.
  intros Hasync Hempty.
  destruct (enqueue_job_async perform self job true st Hasync)
    as (st1 & Hrun & Hlists & Hjobs & _ & _).
  exists (stamped self job true (clock st)), st1,
         (Redis.put_list (key self) [] st1).
  split; [exact Hrun|]. split.
  { simpl. unfold pop_job_id, Redis.lpop.
    rewrite Hlists, decide_True, Hempty by done. simpl.
    unfold Job_fetch.
    change (jobs (with_lists (delete (key self)) st1)) with (jobs st1).
    rewrite Hjobs, lookup_insert_eq.
    by rewrite set_id_same by apply id_stamped. }
  split; [apply id_stamped|]. split; [apply origin_stamped|].
  split; [apply lrange_put_list_eq | apply jobs_put_list].
Qed.

Lemma enqueue_then_dequeue_witness :
  ∃ j' st1 st2,
    enqueue_job perform_nothing (Queue_init (Some "high")) job_c true empty_store
    = (Ok j', st1) ∧
    dequeue 1 (Queue_init (Some "high")) st1 = Some (Ok (Some j'), st2) ∧
    Redis.lrange (key (Queue_init (Some "high"))) st2 = [].
Proof.
  destruct (enqueue_then_dequeue perform_nothing (Queue_init (Some "high"))
              job_c 0 empty_store eq_refl eq_refl)
    as (j' & st1 & st2 & Hrun & Hdeq & _ & _ & Hl & _).
  exists j', st1, st2. split; [exact Hrun|]. split; [exact Hdeq | exact Hl].
Defined.

(** X13.  [push_job_id] and [pop_job_id] are first in, first out: after
    [push_job_id(x)] the count is one more, [pop_job_id()] returns the ID
    that was at the head before the push, or [x] when the list was empty,
    and on an empty list [pop_job_id()] returns none and changes nothing. *)
Theorem push_pop_fifo (self : Queue) (x : string) (st : Store) :
  (∃ st1,
     push_job_id self x st = (Ok tt, st1) ∧
     Redis.lrange (key self) st1 = (Redis.lrange (key self) st ++ [x])%list ∧
     fst (count self st1) = Ok (Z.of_nat (length (Redis.lrange (key self) st)) + 1)%Z ∧
     fst (pop_job_id self st1)
     = Ok (Some (default x (head (Redis.lrange (key self) st)))) ∧
     Redis.lrange (key self) (snd (pop_job_id self st1))
     = (tail (Redis.lrange (key self) st ++ [x]))%list) ∧
  (Redis.lrange (key self) st = [] → pop_job_id self st = (Ok None, st)).
Proof.
  split.
  - eexists. split; [reflexivity|].
    set (l := Redis.lrange (key self) st).
    assert (Hl : Redis.lrange (key self)
                   (Redis.put_list (key self) (l ++ [x]) st) = (l ++ [x])%list)
      by apply lrange_put_list_eq.
    split; [exact Hl|]. unfold count, Redis.llen, pop_job_id, Redis.lpop.
    rewrite Hl. split; [simpl; f_equal; rewrite length_app; simpl; lia|].
    clearbody l. destruct l as [|h t].
    + split; [done|]. apply (lrange_put_list_eq (key self) []).
    + split; [done|]. apply lrange_put_list_eq.
  - intros Hempty. unfold pop_job_id, Redis.lpop. by rewrite Hempty.
Qed.

Lemma push_pop_fifo_witness :
  pop_job_id (Queue_init (Some "default")) empty_store = (Ok None, empty_store).
Proof.
  exact (proj2 (push_pop_fifo (Queue_init (Some "default")) "x" empty_store)
           eq_refl).
Defined.

(** ** The failed queue *)

(** X14.  [quarantine(job, exc_info)] puts the ID of the job at the tail
    of the failed queue and persists the job with [exc_info] and
    [ended_at] set; it keeps origin and [enqueued_at], and it does not
    touch the status: the job is not marked [FAILED] here.  A missing
    timeout becomes 180, a timeout that is set is kept. *)
Theorem quarantine_keeps_metadata
    (perform : Job → M Job) (job : Job) (e : string) (st : Store) :
  ∃ j' st',
    quarantine perform get_failed_queue job e st = (Ok j', st') ∧
    Job_fetch (id job) st' = (Ok j', st') ∧
    Redis.lrange (key get_failed_queue) st'
    = (Redis.lrange (key get_failed_queue) st ++ [id job])%list ∧
    origin j' = origin job ∧ enqueued_at j' = enqueued_at job ∧
    status j' = status job ∧ dependencies j' = dependencies job ∧
    exc_info j' = Some e ∧ ended_at j' = Some (clock st) ∧
    timeout j' = Some (default 180%Z (timeout job)).
Proof.
  set (jq := set_exc_info (Some e) (set_ended_at (Some (clock st)) job)).
  destruct (enqueue_job_async perform get_failed_queue jq false st eq_refl)
    as (st' & Hrun & Hlists & Hjobs & _ & _).
  exists (stamped get_failed_queue jq false (clock st)), st'.
  split; [by rewrite quarantine_unfold|]. split.
  { unfold Job_fetch. change (id job) with (id jq).
    rewrite Hjobs, lookup_insert_eq.
    by rewrite set_id_same by apply id_stamped. }
  split; [by rewrite Hlists, decide_True|].
  rewrite origin_stamped_keep, enqueued_at_stamped_keep, status_stamped,
    dependencies_stamped, exc_info_stamped, timeout_stamped_default.
  repeat split; try done.
  unfold stamped. simpl. by destruct (timeout job).
Qed.

(** X15.  [requeue] refuses a job that is not on the failed queue: when
    the ID has a record that decodes and does not occur on the list of the
    failed queue, [requeue(job_id)] raises [InvalidJobOperationError] and
    nothing is changed: every list reads as before, and the sets, the
    records and the clock are the same. *)
Theorem requeue_non_failed_raises
    (perform : Job → M Job) (job_id : string) (j : Job) (st : Store) :
  jobs st !! job_id = Some (Decodable j) →
  job_id ∉ Redis.lrange (key get_failed_queue) st →
  ∃ st',
    requeue perform get_failed_queue job_id st
    = (Raise InvalidJobOperationError, st') ∧
    (∀ k, Redis.lrange k st' = Redis.lrange k st) ∧
    sets st' = sets st ∧ jobs st' = jobs st ∧ clock st' = clock st.
Proof.
  intros Hj Hnot. unfold requeue, Job_fetch. rewrite Hj.
  unfold_M. unfold remove. simpl id. rewrite lrem_all.
  rewrite (proj2 (occurrences_0 job_id _) Hnot). simpl.
  eexists. split; [done|].
  rewrite sets_put_list, jobs_put_list, clock_put_list.
  repeat split; try done.
  intros k. rewrite lrange_put_list. case_decide; [subst|done].
  by apply filter_absent.
Qed.

Lemma requeue_non_failed_raises_witness :
  ∃ st',
    requeue perform_nothing get_failed_queue "j1" store_low_stale
    = (Raise InvalidJobOperationError, st') ∧
    jobs st' = jobs store_low_stale.
Proof.
  destruct (requeue_non_failed_raises perform_nothing "j1" job_j1 store_low_stale)
    as (st' & Hrun & _ & _ & Hjobs & _).
  - by vm_compute.
  - change ("j1" ∉ []). apply not_elem_of_nil.
  - exists st'. split; [exact Hrun | exact Hjobs].
Defined.

(** ** Deferring and releasing *)

Section DeferRelease.

Variable perform : Job → M Job.

Lemma defer_job_effect (self : Queue) (job : Job) (smd : bool) (st : Store) :
  ∃ st',
    defer_job self job smd st = (Ok (stamped self job smd (clock st)), st') ∧
    lists st' = lists st ∧
    jobs st' = <[id job := Decodable (stamped self job smd (clock st))]> (jobs st) ∧
    (∀ k, Redis.smembers k st'
          = if decide (k = "rq:deferred")
            then {[id job]} ∪ Redis.smembers k st
            else Redis.smembers k st) ∧
    clock st' = clock st.
Proof.
  unfold defer_job. unfold_M. unfold Redis.sadd, utcnow, Job_save.
  destruct smd; simpl; unfold stamped; simpl; rewrite ?clock_put_set.
  all: eexists; split; [reflexivity|].
  all: simpl; rewrite ?lists_put_set, ?jobs_put_set, ?clock_put_set.
  all: destruct (timeout job); simpl.
  all: repeat split; try done.
  all: intros k; rewrite ?smembers_with_jobs, ?smembers_put_set; try done.
  all: by case_decide; subst.
Qed.

(** What a release that goes through does, on a target in async mode. *)
Lemma release_job_async (job_or_id : JobOrId) (qn : QueueOrName)
    (st : Store) (j : Job) :
  resolves job_or_id st j →
  status j = Some DEFERRED →
  id j ∈ Redis.smembers "rq:deferred" st →
  async (target_queue qn j) = true →
  ∃ st',
    release_job perform job_or_id qn st = (Ok tt, st') ∧
    (∀ k, Redis.lrange k st'
          = if decide (k = key (target_queue qn j))
            then (Redis.lrange k st ++ [id j])%list
            else Redis.lrange k st) ∧
    jobs st'
    = <[id j := Decodable (stamped (target_queue qn j)
                             (set_status (Some QUEUED) j) true (clock st))]>
        (jobs st) ∧
    (id j ∉ Redis.smembers "rq:deferred" st') ∧
    clock st' = clock st.
Proof.
  intros Hres Hst Hin Hasync. rewrite (release_job_resolved _ _ _ _ _ Hres).
  unfold is_deferred. rewrite bool_decide_eq_true_2 by done. simpl.
  rewrite decide_True by done.
  destruct (enqueue_job_async perform (target_queue qn j)
              (set_status (Some QUEUED) j) true
              (with_jobs (<[id j := Decodable (set_status (Some QUEUED) j)]>)
                 (Redis.put_set "rq:deferred"
                    (Redis.smembers "rq:deferred" st ∖ {[id j]}) st))
              Hasync)
    as (st' & Hrun & Hlists & Hjobs & Hsets & Hclock).
  unfold_M. rewrite Hrun. exists st'. simpl in *.
  rewrite clock_put_set in Hjobs, Hclock.
  split; [done|]. split; [|split; [|split]].
  - intros k. rewrite Hlists. by rewrite lrange_with_jobs, lrange_put_set.
  - rewrite Hjobs, jobs_put_set. apply insert_insert_eq.
  - rewrite Hsets.
    rewrite decide_False by (intros Hk; by apply eq_sym, registry_not_deferred in Hk).
    rewrite smembers_with_jobs, smembers_put_set, decide_True by done.
    apply not_elem_of_difference_self.
  - exact Hclock.
Qed.

End DeferRelease.

(** X16.  Deferring and then releasing.  [defer_job] puts the job on no
    list: it adds the ID to the Deferred Set and persists the job, and it
    leaves the status of the job as it was.  When that status is
    [DEFERRED], a [release_job] of the job it returned, with a target
    queue in async mode, goes through: it takes the ID out of the Deferred
    Set and appends it to the list of the target queue (with no target
    given, the queue named as the deferring queue), and the persisted job
    has status [QUEUED] and the target as origin.  When the status is
    anything else, [release_job] of the returned job fails with
    [InvalidJobOperationError] and changes nothing, so the ID stays in the
    Deferred Set. *)
Theorem defer_then_release
    (perform : Job → M Job) (self : Queue) (job : Job) (qn : QueueOrName)
    (st : Store) :
  ∃ j1 st1,
    defer_job self job true st = (Ok j1, st1) ∧
    lists st1 = lists st ∧
    id job ∈ Redis.smembers "rq:deferred" st1 ∧
    Job_fetch (id job) st1 = (Ok j1, st1) ∧
    status j1 = status job ∧
    target_queue NoQueue j1 = Queue_init (name self) ∧
    (status job ≠ Some DEFERRED →
     release_job perform (AJob j1) qn st1
     = (Raise InvalidJobOperationError, st1)) ∧
    (status job = Some DEFERRED →
     async (target_queue qn j1) = true →
     ∃ st2 j2,
       release_job perform (AJob j1) qn st1 = (Ok tt, st2) ∧
       (id job ∉ Redis.smembers "rq:deferred" st2) ∧
       Redis.lrange (key (target_queue qn j1)) st2
       = (Redis.lrange (key (target_queue qn j1)) st ++ [id job])%list ∧
       Job_fetch (id job) st2 = (Ok j2, st2) ∧
       status j2 = Some QUEUED ∧ origin j2 = name (target_queue qn j1)).
Proof.
  destruct (defer_job_effect self job true st)
    as (st1 & Hrun1 & Hlists1 & Hjobs1 & Hsets1 & Hclock1).
  set (j1 := stamped self job true (clock st)) in *.
  assert (Hid1 : id j1 = id job) by apply id_stamped.
  assert (Hst1 : status j1 = status job) by apply status_stamped.
  assert (Hin : id j1 ∈ Redis.smembers "rq:deferred" st1).
  { rewrite Hsets1, decide_True, Hid1 by done.
    apply elem_of_union. left. by apply elem_of_singleton. }
  exists j1, st1.
  split; [exact Hrun1|]. split; [exact Hlists1|].
  split; [by rewrite <- Hid1|].
  split.
  { unfold Job_fetch. rewrite Hjobs1, lookup_insert_eq.
    by rewrite set_id_same by (by rewrite Hid1). }
  split; [exact Hst1|].
  split; [simpl; unfold j1; by rewrite origin_stamped|].
  split.
  - intros Hst.
    rewrite (release_job_resolved perform (AJob j1) qn st1 j1 eq_refl).
    unfold is_deferred. rewrite bool_decide_eq_false_2; [done|].
    by rewrite Hst1.
  - intros Hst Hasync.
    destruct (release_job_async perform (AJob j1) qn st1 j1 eq_refl)
      as (st2 & Hrun2 & Hlists2 & Hjobs2 & Hout & _); try done.
    { by rewrite Hst1. }
    exists st2,
      (stamped (target_queue qn j1) (set_status (Some QUEUED) j1) true
         (clock st1)).
    split; [exact Hrun2|].
    split; [by rewrite <- Hid1|]. split.
    { rewrite Hlists2, decide_True, Hid1 by done.
      unfold Redis.lrange. by rewrite Hlists1. }
    split.
    { unfold Job_fetch. rewrite Hjobs2, <- Hid1, lookup_insert_eq.
      by rewrite set_id_same by (by rewrite id_stamped). }
    split; [by rewrite status_stamped|apply origin_stamped].
Qed.

Lemma defer_then_release_witness :
  status job_d = Some DEFERRED ∧
  ∃ j1 st1 st2,
    async (target_queue (AName "2") j1) = true ∧
    defer_job (Queue_init (Some "1")) job_d true empty_store = (Ok j1, st1) ∧
    release_job perform_nothing (AJob j1) (AName "2") st1 = (Ok tt, st2) ∧
    Redis.lrange "rq:queue:2" st2 = ["d"].
Proof.
  split; [reflexivity|].
  destruct (defer_then_release perform_nothing (Queue_init (Some "1")) job_d
              (AName "2") empty_store)
    as (j1 & st1 & Hrun1 & _ & _ & _ & _ & _ & _ & Hrelease).
  destruct (Hrelease eq_refl eq_refl) as (st2 & j2 & Hrun2 & _ & Hl & _).
  exists j1, st1, st2. split; [reflexivity|].
  split; [exact Hrun1|]. split; [exact Hrun2|]. exact Hl.
Defined.

(** X17.  A job is released once: after a [release_job] that went through
    on a target in async mode, a second [release_job] of the same ID,
    whatever the target, raises [InvalidJobOperationError], since the
    persisted status is now [QUEUED], and changes nothing. *)
Theorem release_job_only_once
    (perform : Job → M Job) (job_or_id : JobOrId) (qn qn' : QueueOrName)
    (st st' : Store) (j : Job) :
  resolves job_or_id st j →
  async (target_queue qn j) = true →
  release_job perform job_or_id qn st = (Ok tt, st') →
  release_job perform (AnId (id j)) qn' st' = (Raise InvalidJobOperationError, st').
Proof.
  intros Hres Hasync Hrun.
  assert (Hdef : status j = Some DEFERRED ∧
                 id j ∈ Redis.smembers "rq:deferred" st).
  { rewrite (release_job_resolved _ _ _ _ _ Hres) in Hrun.
    unfold is_deferred in Hrun.
    destruct (decide (status j = Some DEFERRED)) as [Hs|Hs].
    - split; [done|]. rewrite bool_decide_eq_true_2 in Hrun by done.
      simpl in Hrun. by case_decide.
    - by rewrite bool_decide_eq_false_2 in Hrun by done. }
  destruct Hdef as [Hst Hin].
  destruct (release_job_async perform job_or_id qn st j Hres Hst Hin Hasync)
    as (st2 & Hrun2 & _ & Hjobs & _).
  rewrite Hrun in Hrun2. injection Hrun2 as <-.
  rewrite (release_job_resolved perform (AnId (id j)) qn' st'
             (set_id (id j)
                (stamped (target_queue qn j) (set_status (Some QUEUED) j) true
                   (clock st)))).
  - unfold is_deferred. rewrite bool_decide_eq_false_2; [done|].
    simpl. by rewrite status_stamped.
  - simpl. eexists. split; [|done]. by rewrite Hjobs, lookup_insert_eq.
Qed.

Lemma release_job_only_once_witness :
  release_job perform_nothing (AnId "d") NoQueue
    (snd (release_job perform_nothing (AJob job_d) NoQueue store_deferred))
  = (Raise InvalidJobOperationError,
     snd (release_job perform_nothing (AJob job_d) NoQueue store_deferred)).
Proof.
  apply (release_job_only_once perform_nothing (AJob job_d) NoQueue NoQueue
           store_deferred _ job_d eq_refl eq_refl).
  by vm_compute.
Defined.

(** X18.  [release_job_here] releases into this queue whatever the origin
    of the job: for a deferred job in the Deferred Set and a queue in async
    mode, the ID goes to the tail of the list of this queue, every other
    list, the list of the queue of its origin among them, stays as it was,
    and the persisted job has status [QUEUED] and this queue as origin. *)
Theorem release_job_here_moves
    (perform : Job → M Job) (self : Queue) (j : Job) (st : Store) :
  async self = true →
  status j = Some DEFERRED →
  id j ∈ Redis.smembers "rq:deferred" st →
  ∃ st' j',
    release_job_here perform self (AJob j) st = (Ok tt, st') ∧
    Redis.lrange (key self) st' = (Redis.lrange (key self) st ++ [id j])%list ∧
    (∀ k, k ≠ key self → Redis.lrange k st' = Redis.lrange k st) ∧
    Job_fetch (id j) st' = (Ok j', st') ∧
    status j' = Some QUEUED ∧ origin j' = name self.
Proof.
  intros Hasync Hst Hin.
  destruct (release_job_async perform (AJob j) (AQueue self) st j eq_refl
              Hst Hin Hasync)
    as (st' & Hrun & Hlists & Hjobs & _ & _).
  simpl in *.
  exists st', (stamped self (set_status (Some QUEUED) j) true (clock st)).
  split; [exact Hrun|]. split; [by rewrite Hlists, decide_True|].
  split; [intros k Hk; by rewrite Hlists, decide_False|]. split.
  { unfold Job_fetch. rewrite Hjobs, lookup_insert_eq.
    by rewrite set_id_same by (by rewrite id_stamped). }
  split; [by rewrite status_stamped | apply origin_stamped].
Qed.

Lemma release_job_here_moves_witness :
  ∃ st' j',
    release_job_here perform_nothing (Queue_init (Some "2")) (AJob job_d)
      store_deferred = (Ok tt, st') ∧
    Redis.lrange (key (Queue_init (Some "2"))) st' = ["d"] ∧
    Job_fetch "d" st' = (Ok j', st') ∧
    origin j' = Some "2".
Proof.
  destruct (release_job_here_moves perform_nothing (Queue_init (Some "2")) job_d
              store_deferred eq_refl eq_refl)
    as (st' & j' & Hrun & Hl & _ & Hfetch & _ & Ho).
  - by vm_compute.
  - exists st', j'. split; [exact Hrun|]. split.
    + etransitivity; [exact Hl|]. by vm_compute.
    + split; [exact Hfetch | exact Ho].
Defined.

(** ** Queue keys and the registry *)

Lemma prefix_drop (p k : string) :
  String.prefix p k = true → p ++ string_drop (String.length p) k = k.
Proof.
  revert k. induction p as [|a p IH]; intros k Hp; [done|].
  destruct k as [|b k]; [done|]. simpl in Hp.
  destruct (Ascii.ascii_dec a b) as [->|]; [|done].
  simpl. change (String b (p +:+ string_drop (String.length p) k) = String b k).
  f_equal. by apply IH.
Qed.

Lemma from_queue_key_cases (queue_key : string) (st : Store) :
  from_queue_key queue_key st
  = if String.prefix "rq:queue:" queue_key
    then (Ok (Queue_init (Some (string_drop 9 queue_key))), st)
    else (Raise ValueError, st).
Proof.
  unfold from_queue_key.
  change (redis_queue_namespace_prefix Queue_cls) with "rq:queue:".
  change (String.length "rq:queue:") with 9.
  by destruct (String.prefix "rq:queue:" queue_key).
Qed.

(** X19.  [from_queue_key] inverts [key] on plain queues: the key of
    [Queue(n)] gives back [Queue(n)], and whenever [from_queue_key] returns
    a queue, the key of that queue is the key it was given.  A key without
    the prefix of plain queues raises [ValueError].  The store is not
    touched. *)
Theorem from_queue_key_inverts_key (queue_key : string) (st : Store) :
  (∀ n, from_queue_key (key (Queue_init (Some n))) st
        = (Ok (Queue_init (Some n)), st)) ∧
  (∀ q st', from_queue_key queue_key st = (Ok q, st') →
            key q = queue_key ∧ st' = st) ∧
  (String.prefix "rq:queue:" queue_key = false →
   from_queue_key queue_key st = (Raise ValueError, st)).
Proof.
  split; [|split].
  - intros n. apply from_queue_key_plain.
  - intros q st'. rewrite from_queue_key_cases.
    destruct (String.prefix "rq:queue:" queue_key) eqn:Hp; [|done].
    intros [= <- <-]. split; [|done].
    apply (prefix_drop "rq:queue:" queue_key Hp).
  - intros Hp. by rewrite from_queue_key_cases, Hp.
Qed.

Lemma from_queue_key_inverts_key_witness :
  from_queue_key "rq:wipqueue:default" empty_store = (Raise ValueError, empty_store).
Proof.
  exact (proj2 (proj2 (from_queue_key_inverts_key "rq:wipqueue:default"
                         empty_store)) eq_refl).
Defined.

(** Every key of the registry of plain queues has their prefix. *)
Definition registry_plain (st : Store) : Prop :=
  ∀ k, k ∈ Redis.smembers "rq:queues" st → String.prefix "rq:queue:" k = true.

Lemma to_queues_plain (rq_keys : list string) (st : Store) :
  (∀ k, k ∈ rq_keys → String.prefix "rq:queue:" k = true) →
  to_queues rq_keys st
  = (Ok ((λ k, Queue_init (Some (string_drop 9 k))) <$> rq_keys), st).
Proof.
  induction rq_keys as [|k rq_keys IH]; intros Hall; [done|].
  assert (Hk : String.prefix "rq:queue:" k = true)
    by (apply Hall; apply list_elem_of_here).
  simpl. rewrite bool_decide_eq_false_2 by (intros ->; discriminate Hk).
  unfold_M. rewrite from_queue_key_cases, Hk, IH; [done|].
  intros k' Hk'. apply Hall. by apply list_elem_of_further.
Qed.

Lemma to_queues_bad (rq_keys : list string) (bad : string) (st : Store) :
  bad ∈ rq_keys → bad ≠ "" → String.prefix "rq:queue:" bad = false →
  to_queues rq_keys st = (Raise ValueError, st).
Proof.
  intros Hin Hne Hbad. induction rq_keys as [|k rq_keys IH].
  { by apply not_elem_of_nil in Hin. }
  simpl. apply elem_of_cons in Hin as [<-|Hin].
  - rewrite bool_decide_eq_false_2 by done.
    unfold_M. by rewrite from_queue_key_cases, Hbad.
  - case_bool_decide; [by apply IH|].
    unfold_M. rewrite from_queue_key_cases.
    destruct (String.prefix "rq:queue:" k); [|done]. by rewrite IH.
Qed.

(** X20.  [enqueue_job] makes a queue known to [Queue.all()]: on a plain
    queue named [n] in async mode, with a registry that holds keys of plain
    queues only, [Queue.all()] after the enqueue returns a list that has
    [Queue(n)] in it, and the key of every queue it returns is in the
    registry. *)
Theorem all_after_enqueue_job
    (perform : Job → M Job) (self : Queue) (n : string) (job : Job)
    (set_meta_data : bool) (st : Store) :
  async self = true →
  name self = Some n →
  klass self = Queue_cls ∨ klass self = FailedQueue_cls →
  registry_plain st →
  ∃ j' st' qs,
    enqueue_job perform self job set_meta_data st = (Ok j', st') ∧
    Queue_all st' = (Ok qs, st') ∧
    Queue_init (Some n) ∈ qs ∧
    ∀ q, q ∈ qs → key q ∈ Redis.smembers "rq:queues" st'.
Proof.
  intros Hasync Hname Hcls Hreg.
  destruct (enqueue_job_async perform self job set_meta_data st Hasync)
    as (st' & Hrun & _ & _ & Hsets & _).
  assert (Hregkey : redis_queues_keys (klass self) = "rq:queues")
    by (by destruct Hcls as [-> | ->]).
  assert (Hkey : key self = "rq:queue:" ++ n).
  { unfold key. rewrite Hname. by destruct Hcls as [-> | ->]. }
  assert (Hreg' : Redis.smembers "rq:queues" st'
                  = {[key self]} ∪ Redis.smembers "rq:queues" st).
  { by rewrite Hsets, Hregkey, decide_True. }
  assert (Hplain : ∀ k, k ∈ elements (Redis.smembers "rq:queues" st') →
                        String.prefix "rq:queue:" k = true).
  { intros k. rewrite elem_of_elements, Hreg', elem_of_union, elem_of_singleton.
    intros [-> | Hk]; [|by apply Hreg]. rewrite Hkey. simpl. by destruct n. }
  exists (stamped self job set_meta_data (clock st)), st'. eexists.
  split; [exact Hrun|]. split.
  { unfold Queue_all. simpl redis_queues_keys. by apply to_queues_plain. }
  split.
  - apply list_elem_of_fmap. exists (key self). split.
    + by rewrite Hkey.
    + rewrite elem_of_elements, Hreg', elem_of_union, elem_of_singleton. by left.
  - intros q Hq. apply list_elem_of_fmap in Hq as (k & -> & Hk).
    unfold key. simpl.
    change ("rq:queue:" ++ string_drop (String.length "rq:queue:") k
            ∈ Redis.smembers "rq:queues" st').
    rewrite (prefix_drop "rq:queue:" k (Hplain k Hk)).
    by apply elem_of_elements.
Qed.

Lemma all_after_enqueue_job_witness :
  ∃ j' st' qs,
    enqueue_job perform_nothing get_failed_queue job_fake false empty_store
    = (Ok j', st') ∧
    Queue_all st' = (Ok qs, st') ∧
    Queue_init (Some "failed") ∈ qs.
Proof.
  destruct (all_after_enqueue_job perform_nothing get_failed_queue "failed"
              job_fake false empty_store eq_refl eq_refl)
    as (j' & st' & qs & Hrun & Hall & Hin & _).
  - by right.
  - intros k Hk. by apply not_elem_of_empty in Hk.
  - exists j', st', qs. split; [exact Hrun|]. split; [exact Hall | exact Hin].
Defined.

(** X21.  One foreign key breaks [Queue.all()]: when the registry holds a
    key that is not the empty string and lacks the prefix of plain queues,
    [Queue.all()] raises [ValueError], whatever else the registry holds. *)
Theorem all_raises_on_foreign_key (bad : string) (st : Store) :
  bad ∈ Redis.smembers "rq:queues" st →
  bad ≠ "" →
  String.prefix "rq:queue:" bad = false →
  Queue_all st = (Raise ValueError, st).
Proof.
  intros Hin Hne Hbad. unfold Queue_all.
  apply (to_queues_bad _ bad); [|done|done]. by apply elem_of_elements.
Qed.

(** The registry holds the key of a WIP queue beside that of a plain one. *)
Definition store_foreign_key : Store :=
  mkStore ∅ {["rq:queues" := {["rq:queue:default"; "rq:wipqueue:default"]}]} ∅ 0.

Lemma all_raises_on_foreign_key_witness :
  Queue_all store_foreign_key = (Raise ValueError, store_foreign_key).
Proof.
  apply (all_raises_on_foreign_key "rq:wipqueue:default" store_foreign_key).
  - by vm_compute.
  - discriminate.
  - reflexivity.
Defined.

(** ** Edges of [enqueue_dependents] and [compact] *)




Lemma compact_result (fuel : nat) (self : Queue) (uuid : string) (st : Store) :
  COMPACT_QUEUE self uuid ≠ key self →
  length (Redis.lrange (key self) st) < fuel →
  ∃ r st',
    compact fuel self uuid st = Some (r, st') ∧
    Redis.lrange (key self) st'
    = filter (λ i, Job_exists i st) (Redis.lrange (key self) st) ∧
    jobs st' = jobs st ∧
    (Redis.lrange (key self) st = [] → r = Raise ResponseError ∧ st' = st) ∧
    (Redis.lrange (key self) st ≠ [] → r = Ok tt).
Proof.
  intros Hne Hlen. unfold compact, Redis.rename.
  destruct (Redis.lrange (key self) st) as [|i l] eqn:Hl.
  { exists (Raise ResponseError), st. by rewrite Hl. }
  set (st1 := with_lists _ st).
  assert (Hscratch : Redis.lrange (COMPACT_QUEUE self uuid) st1 = i :: l).
  { unfold Redis.lrange, st1. simpl. by rewrite lookup_insert_eq. }
  assert (Hkey : Redis.lrange (key self) st1 = []).
  { unfold Redis.lrange, st1. simpl.
    by rewrite lookup_insert_ne, lookup_delete_eq. }
  destruct (compact_loop_drains self _ Hne fuel st1)
    as (st' & Hrun & Hk & _ & _ & Hjobs & _).
  { rewrite Hscratch. exact Hlen. }
  exists (Ok tt), st'. split; [done|].
  rewrite Hk, Hkey, Hscratch, Hjobs. simpl. repeat split; try done.
Qed.

(** X23.  [compact()] on a queue without entries raises the error of RENAME
    on a missing key and changes nothing.  Compacting twice is compacting
    once: a second [compact()], whether it returns or raises, leaves the
    FIFO list as the first one left it. *)
Theorem compact_twice
    (fuel : nat) (self : Queue) (uuid uuid' : string) (st : Store) :
  COMPACT_QUEUE self uuid ≠ key self →
  COMPACT_QUEUE self uuid' ≠ key self →
  length (Redis.lrange (key self) st) < fuel →
  (Redis.lrange (key self) st = [] →
   compact fuel self uuid st = Some (Raise ResponseError, st)) ∧
  ∃ r1 st1 r2 st2,
    compact fuel self uuid st = Some (r1, st1) ∧
    compact fuel self uuid' st1 = Some (r2, st2) ∧
    Redis.lrange (key self) st2 = Redis.lrange (key self) st1.
Proof.
  intros Hne Hne' Hlen.
  destruct (compact_result fuel self uuid st Hne Hlen)
    as (r1 & st1 & Hrun1 & Hl1 & Hjobs1 & Hnil & _).
  split.
  { intros Hempty. destruct (Hnil Hempty) as [-> ->]. exact Hrun1. }
  destruct (compact_result fuel self uuid' st1 Hne')
    as (r2 & st2 & Hrun2 & Hl2 & _).
  { rewrite Hl1. pose proof (length_filter (λ i, Job_exists i st)
                              (Redis.lrange (key self) st)). lia. }
  exists r1, st1, r2, st2. split; [exact Hrun1|]. split; [exact Hrun2|].
  rewrite Hl2, Hl1. rewrite (filter_exists_jobs st st1 _ Hjobs1).
  rewrite list_filter_filter. apply list_filter_iff. intros x. tauto.
Qed.

Lemma compact_twice_witness :
  compact 1 (Queue_init (Some "default")) "u4" empty_store
  = Some (Raise ResponseError, empty_store).
Proof.
  apply (compact_twice 1 (Queue_init (Some "default")) "u4" "u5" empty_store).
  - by vm_compute.
  - by vm_compute.
  - vm_compute. lia.
  - reflexivity.
Defined.

(** ** The order of queues *)

Lemma string_compare_refl (s : string) : String.compare s s = Eq.
Proof.
  pose proof (String.compare_antisym s s) as H.
  by destruct (String.compare s s).
Qed.

Lemma name_order_cases (a b : option string) :
  (a = b ∧ name_ltb a b = false ∧ name_ltb b a = false) ∨
  (a ≠ b ∧ name_ltb a b = true ∧ name_ltb b a = false) ∨
  (a ≠ b ∧ name_ltb a b = false ∧ name_ltb b a = true).
Proof.
  destruct a as [x|], b as [y|]; simpl.
  - unfold String.ltb. rewrite (String.compare_antisym y x).
    destruct (String.compare x y) eqn:Hc; simpl.
    + left. apply String.compare_eq_iff in Hc. by subst.
    + right. left. repeat split; try done. intros [= ->].
      by rewrite string_compare_refl in Hc.
    + right. right. repeat split; try done. intros [= ->].
      by rewrite string_compare_refl in Hc.
  - right. right. by repeat split.
  - right. left. by repeat split.
  - left. by repeat split.
Qed.

(** X24.  Between two queues both comparisons return, and the order is by
    name alone and total: [a == b] is true exactly when the names are
    equal, whatever the class, default timeout or mode of the two queues,
    and exactly one of [a == b], [a < b] and [b < a] is true. *)
Theorem queue_order_trichotomy (a b : Queue) :
  ∃ e l g : bool,
    __eq__ a (PyQueue b) = Ok e ∧
    __lt__ a (PyQueue b) = Ok l ∧
    __lt__ b (PyQueue a) = Ok g ∧
    (e = true ↔ name a = name b) ∧
    ((e = true ∧ l = false ∧ g = false) ∨
     (e = false ∧ l = true ∧ g = false) ∨
     (e = false ∧ l = false ∧ g = true)).
Proof.
  exists (bool_decide (name a = name b)),
         (name_ltb (name a) (name b)), (name_ltb (name b) (name a)).
  split; [done|]. split; [done|]. split; [done|].
  split; [apply bool_decide_eq_true|].
  destruct (name_order_cases (name a) (name b))
    as [(He & -> & ->)|[(He & -> & ->)|(He & -> & ->)]].
  - left. by rewrite bool_decide_eq_true_2.
  - right. left. by rewrite bool_decide_eq_false_2.
  - right. right. by rewrite bool_decide_eq_false_2.
Qed.

(** ** Sync mode, and the end of [dequeue] *)

(** X25.  On a queue with [async=False], [enqueue_job] lists nothing: it
    saves the stamped job, then runs it, and its outcome is the outcome of
    the run.  With a [perform] that leaves the lists alone, every list is
    after [enqueue_job] what it was before, whether the run returns or
    raises. *)
Theorem enqueue_job_sync_lists_nothing
    (perform : Job → M Job) (self : Queue) (job : Job) (set_meta_data : bool)
    (st : Store) :
  async self = false →
  (∀ j s, lists (snd (perform j s)) = lists s) →
  lists (snd (enqueue_job perform self job set_meta_data st)) = lists st ∧
  ∃ st1,
    jobs st1 !! id job
    = Some (Decodable (stamped self job set_meta_data (clock st))) ∧
    fst (enqueue_job perform self job set_meta_data st)
    = fst (perform (stamped self job set_meta_data (clock st)) st1).
Proof.
  intros Hsync Hperform.
  set (st0 := Redis.put_set (redis_queues_keys (klass self))
                ({[key self]} ∪ Redis.smembers (redis_queues_keys (klass self)) st)
                st).
  set (js := stamped self job set_meta_data (clock st)).
  set (st1 := with_jobs (<[id js := Decodable js]>) st0).
  assert (Hrun : enqueue_job perform self job set_meta_data st
                 = match perform js st1 with
                   | (Ok j2, st2) =>
                       (Ok j2, with_jobs (<[id j2 := Decodable j2]>) st2)
                   | (Raise e, st2) => (Raise e, st2)
                   end).
  { unfold enqueue_job. unfold_M. unfold Redis.sadd, utcnow, Job_save.
    rewrite Hsync. fold st0.
    assert (Hc : clock st0 = clock st) by apply clock_put_set.
    destruct set_meta_data; simpl; rewrite ?Hc; reflexivity. }
  assert (Hl1 : lists st1 = lists st) by apply lists_put_set.
  split.
  - rewrite Hrun. pose proof (Hperform js st1) as Hp.
    destruct (perform js st1) as [[j2|e] st2]; simpl in *; by rewrite Hp.
  - exists st1. split.
    + change (jobs st1) with (<[id js := Decodable js]> (jobs st0)).
      replace (id job) with (id js) by apply id_stamped.
      apply lookup_insert_eq.
    + rewrite Hrun. by destruct (perform js st1) as [[?|?] ?].
Qed.

Lemma enqueue_job_sync_lists_nothing_witness :
  lists (snd (enqueue_job perform_nothing (mkQueue Queue_cls (Some "sync") None false)
                job_c true empty_store))
  = lists empty_store.
Proof.
  exact (proj1 (enqueue_job_sync_lists_nothing perform_nothing
                  (mkQueue Queue_cls (Some "sync") None false) job_c true
                  empty_store eq_refl (λ _ _, eq_refl))).
Defined.

(** X26.  [dequeue()] ends: within one call more than the list has
    entries it returns or raises.  What it leaves on the list is what came
    behind the IDs it popped, and it changes no record, no set and no other
    list. *)
Theorem dequeue_terminates (fuel : nat) (self : Queue) (st : Store) :
  length (Redis.lrange (key self) st) < fuel →
  ∃ r st' popped,
    dequeue fuel self st = Some (r, st') ∧
    Redis.lrange (key self) st = (popped ++ Redis.lrange (key self) st')%list ∧
    (∀ k, k ≠ key self → Redis.lrange k st' = Redis.lrange k st) ∧
    sets st' = sets st ∧ jobs st' = jobs st ∧ clock st' = clock st.
Proof.
  revert st. induction fuel as [|fuel IH]; intros st Hlen; [lia|].
  simpl. unfold pop_job_id, Redis.lpop.
  destruct (Redis.lrange (key self) st) as [|x l] eqn:Hl.
  { exists (Ok None), st, []. by rewrite Hl. }
  set (st1 := Redis.put_list (key self) l st).
  assert (Hl1 : Redis.lrange (key self) st1 = l) by apply lrange_put_list_eq.
  assert (Hst1 : (∀ k, k ≠ key self → Redis.lrange k st1 = Redis.lrange k st) ∧
                 sets st1 = sets st ∧ jobs st1 = jobs st ∧ clock st1 = clock st).
  { unfold st1. rewrite sets_put_list, jobs_put_list, clock_put_list.
    repeat split; try done. intros k Hk. by apply lrange_put_list_ne. }
  unfold Job_fetch.
  destruct (jobs st1 !! x) as [[j|]|].
  - exists (Ok (Some (set_id x j))), st1, [x]. by rewrite Hl1.
  - exists (Raise (UnpickleError (Some x) (Some self))), st1, [x].
    by rewrite Hl1.
  - destruct (IH st1) as (r & st' & popped & Hrun & Hsuffix & Hother & Hsets
                          & Hjobs & Hclock).
    { rewrite Hl1. simpl in Hlen. lia. }
    exists r, st', (x :: popped). split; [exact Hrun|].
    destruct Hst1 as (Ho1 & Hs1 & Hj1 & Hc1).
    split; [by rewrite <- app_comm_cons, <- Hsuffix, Hl1|].
    rewrite Hsets, Hjobs, Hclock. repeat split; try done.
    intros k Hk. by rewrite Hother, Ho1.
Qed.

Lemma dequeue_terminates_witness :
  ∃ r st',
    dequeue 3 (Queue_init (Some "low")) store_undecodable = Some (r, st') ∧
    jobs st' = jobs store_undecodable.
Proof.
  destruct (dequeue_terminates 3 (Queue_init (Some "low")) store_undecodable)
    as (r & st' & _ & Hrun & _ & _ & _ & Hjobs & _).
  - vm_compute. lia.
  - exists r, st'. split; [exact Hrun | exact Hjobs].
Defined.
